(** * MimiBoot: ELF loader, handoff builder and boot orchestration

    A shallow embedding of the core of MimiBoot (loader.c, handoff.c,
    config.c and the image-opening step of main.c), with the properties
    of its specification stated and settled against it.

    Conventions.  A [uintN_t] is a [Z] in [0, 2^N); every C operation
    that can wrap has its wrap-around written out with [u32].  A byte is
    a [Z] in [0, 256).  Target memory is a total map from addresses to
    bytes together with the log of the addresses stored to, so that
    "no byte was written" is a statement about the log. *)

From stdpp Require Import base numbers list strings.
From Stdlib Require Import ZArith Lia.

Local Open Scope Z_scope.

(** ** Machine integers *)

Definition u32 (z : Z) : Z := z mod 2 ^ 32.
Definition u8 (z : Z) : Z := z mod 2 ^ 8.

(** ** loader.h: error codes *)

Inductive mimi_err_t : Set :=
  | MIMI_OK
  | MIMI_ERR_IO
  | MIMI_ERR_NOT_FOUND
  | MIMI_ERR_READ
  | MIMI_ERR_SEEK
  | MIMI_ERR_NOT_ELF
  | MIMI_ERR_NOT_ELF32
  | MIMI_ERR_NOT_LE
  | MIMI_ERR_NOT_EXEC
  | MIMI_ERR_NOT_ARM
  | MIMI_ERR_BAD_VERSION
  | MIMI_ERR_NO_ENTRY
  | MIMI_ERR_NO_PHDRS
  | MIMI_ERR_BAD_PHDR_SIZE
  | MIMI_ERR_TOO_MANY_PHDRS
  | MIMI_ERR_NO_LOADABLE
  | MIMI_ERR_ADDR_INVALID
  | MIMI_ERR_ADDR_OVERLAP
  | MIMI_ERR_TOO_LARGE
  | MIMI_ERR_LOAD_FAILED
  | MIMI_ERR_ALIGNMENT
  | MIMI_ERR_NO_MEMORY
  | MIMI_ERR_BAD_REGION.

#[global] Instance mimi_err_eq_dec : EqDecision mimi_err_t.
Proof. solve_decision. Defined.

(** The numeric value of each enumerator. *)
Definition err_code (e : mimi_err_t) : Z :=
  match e with
  | MIMI_OK => 0
  | MIMI_ERR_IO => -1
  | MIMI_ERR_NOT_FOUND => -2
  | MIMI_ERR_READ => -3
  | MIMI_ERR_SEEK => -4
  | MIMI_ERR_NOT_ELF => -10
  | MIMI_ERR_NOT_ELF32 => -11
  | MIMI_ERR_NOT_LE => -12
  | MIMI_ERR_NOT_EXEC => -13
  | MIMI_ERR_NOT_ARM => -14
  | MIMI_ERR_BAD_VERSION => -15
  | MIMI_ERR_NO_ENTRY => -16
  | MIMI_ERR_NO_PHDRS => -17
  | MIMI_ERR_BAD_PHDR_SIZE => -18
  | MIMI_ERR_TOO_MANY_PHDRS => -19
  | MIMI_ERR_NO_LOADABLE => -30
  | MIMI_ERR_ADDR_INVALID => -31
  | MIMI_ERR_ADDR_OVERLAP => -32
  | MIMI_ERR_TOO_LARGE => -33
  | MIMI_ERR_LOAD_FAILED => -34
  | MIMI_ERR_ALIGNMENT => -35
  | MIMI_ERR_NO_MEMORY => -40
  | MIMI_ERR_BAD_REGION => -41
  end.

(** ** elf.h: constants and structures *)

Definition EI_MAG0 : nat := 0.
Definition EI_MAG1 : nat := 1.
Definition EI_MAG2 : nat := 2.
Definition EI_MAG3 : nat := 3.
Definition EI_CLASS : nat := 4.
Definition EI_DATA : nat := 5.
Definition EI_VERSION : nat := 6.
Definition EI_NIDENT : nat := 16.

Definition ELFMAG0 : Z := 0x7f.
Definition ELFMAG1 : Z := 69.  (* 'E' *)
Definition ELFMAG2 : Z := 76.  (* 'L' *)
Definition ELFMAG3 : Z := 70.  (* 'F' *)
Definition ELFCLASS32 : Z := 1.
Definition ELFDATA2LSB : Z := 1.
Definition EV_CURRENT : Z := 1.
Definition ET_EXEC : Z := 2.
Definition EM_ARM : Z := 40.
Definition PT_LOAD : Z := 1.
Definition PF_X : Z := 1.
Definition PF_W : Z := 2.
Definition PF_R : Z := 4.

Definition sizeof_Elf32_Ehdr : Z := 52.
Definition sizeof_Elf32_Phdr : Z := 32.

Record Elf32_Ehdr : Set := mkEhdr {
  e_ident : list Z;
  e_type : Z;
  e_machine : Z;
  e_version : Z;
  e_entry : Z;
  e_phoff : Z;
  e_shoff : Z;
  e_flags : Z;
  e_ehsize : Z;
  e_phentsize : Z;
  e_phnum : Z;
  e_shentsize : Z;
  e_shnum : Z;
  e_shstrndx : Z
}.

Record Elf32_Phdr : Set := mkPhdr {
  p_type : Z;
  p_offset : Z;
  p_vaddr : Z;
  p_paddr : Z;
  p_filesz : Z;
  p_memsz : Z;
  p_flags : Z;
  p_align : Z
}.

(** [e_ident[i]], a [uint8_t]; the array has [EI_NIDENT] bytes. *)
Definition ident (ehdr : Elf32_Ehdr) (i : nat) : Z := u8 (nth i (e_ident ehdr) 0).

(** ** loader.c: header validation *)

Definition mimi_elf_validate_header (ehdr : Elf32_Ehdr) : mimi_err_t :=
  if negb (ident ehdr EI_MAG0 =? ELFMAG0) || negb (ident ehdr EI_MAG1 =? ELFMAG1)
     || negb (ident ehdr EI_MAG2 =? ELFMAG2) || negb (ident ehdr EI_MAG3 =? ELFMAG3)
  then MIMI_ERR_NOT_ELF
  else if negb (ident ehdr EI_CLASS =? ELFCLASS32) then MIMI_ERR_NOT_ELF32
  else if negb (ident ehdr EI_DATA =? ELFDATA2LSB) then MIMI_ERR_NOT_LE
  else if negb (ident ehdr EI_VERSION =? EV_CURRENT) || negb (e_version ehdr =? EV_CURRENT)
  then MIMI_ERR_BAD_VERSION
  else if negb (e_type ehdr =? ET_EXEC) then MIMI_ERR_NOT_EXEC
  else if negb (e_machine ehdr =? EM_ARM) then MIMI_ERR_NOT_ARM
  else if e_entry ehdr =? 0 then MIMI_ERR_NO_ENTRY
  else if (e_phoff ehdr =? 0) || (e_phnum ehdr =? 0) then MIMI_ERR_NO_PHDRS
  else if negb (e_phentsize ehdr =? sizeof_Elf32_Phdr) then MIMI_ERR_BAD_PHDR_SIZE
  else if e_phnum ehdr >? 64 then MIMI_ERR_TOO_MANY_PHDRS
  else MIMI_OK.

(** ** Little-endian decoding of the on-disk structures

    The loader reads the headers straight into [Elf32_Ehdr] and
    [Elf32_Phdr] objects on a little-endian target; the structures have no
    padding (elf.h asserts sizes 52 and 32). *)

(** Reading a [uint8_t] out of a buffer. *)
Definition byte_at (buf : list Z) (off : nat) : Z := u8 (nth off buf 0).

Definition le16 (buf : list Z) (off : nat) : Z :=
  byte_at buf off + 2 ^ 8 * byte_at buf (off + 1).

Definition le32 (buf : list Z) (off : nat) : Z :=
  byte_at buf off + 2 ^ 8 * byte_at buf (off + 1)
  + 2 ^ 16 * byte_at buf (off + 2) + 2 ^ 24 * byte_at buf (off + 3).

Definition decode_ehdr (buf : list Z) : Elf32_Ehdr :=
  {| e_ident := take EI_NIDENT buf;
     e_type := le16 buf 16;
     e_machine := le16 buf 18;
     e_version := le32 buf 20;
     e_entry := le32 buf 24;
     e_phoff := le32 buf 28;
     e_shoff := le32 buf 32;
     e_flags := le32 buf 36;
     e_ehsize := le16 buf 40;
     e_phentsize := le16 buf 42;
     e_phnum := le16 buf 44;
     e_shentsize := le16 buf 46;
     e_shnum := le16 buf 48;
     e_shstrndx := le16 buf 50 |}.

Definition decode_phdr (buf : list Z) : Elf32_Phdr :=
  {| p_type := le32 buf 0;
     p_offset := le32 buf 4;
     p_vaddr := le32 buf 8;
     p_paddr := le32 buf 12;
     p_filesz := le32 buf 16;
     p_memsz := le32 buf 20;
     p_flags := le32 buf 24;
     p_align := le32 buf 28 |}.

(** ** loader.h: regions, I/O operations, results, configuration *)

Record mimi_mem_region_t : Set := mkRegion {
  r_base : Z;
  r_size : Z;
  r_flags : Z
}.

Definition MIMI_MEM_READ : Z := 0x0001.
Definition MIMI_MEM_WRITE : Z := 0x0002.
Definition MIMI_MEM_EXEC : Z := 0x0004.
Definition MIMI_MEM_RAM : Z := 0x0010.
Definition MIMI_MEM_FLASH : Z := 0x0020.

Definition MIMI_MAX_SEGMENTS : Z := 16.
Definition LOAD_BUFFER_SIZE : Z := 512.

(** [read file offset buffer size]: the [int32_t] result and the contents
    of [buffer] after the call.  [F] is the opaque [mimi_file_t]. *)
Record mimi_io_ops_t (F : Type) : Type := mkIo {
  io_read : F -> Z -> Z -> Z * list Z;
  io_size : F -> Z
}.
Arguments io_read {F}.
Arguments io_size {F}.

Record mimi_segment_info_t : Set := mkSegInfo {
  si_vaddr : Z;
  si_size : Z;
  si_flags : Z;
  si_loaded : bool
}.

Record mimi_load_result_t : Set := mkResult {
  status : mimi_err_t;
  entry : Z;
  load_base : Z;
  load_end : Z;
  total_size : Z;
  segment_count : Z;
  segments : list mimi_segment_info_t;
  bytes_copied : Z;
  bytes_zeroed : Z
}.

(** The array [regions] has [region_count] entries; the list is that
    array. *)
Record mimi_loader_config_t (F : Type) : Type := mkConfig {
  regions : list mimi_mem_region_t;
  io : mimi_io_ops_t F;
  validate_addresses : bool;
  zero_bss : bool;
  verify_after_load : bool
}.
Arguments regions {F}.
Arguments io {F}.
Arguments validate_addresses {F}.
Arguments zero_bss {F}.
Arguments verify_after_load {F}.

(** ** Target memory *)

Record memory : Type := mkMem {
  bytes : Z -> Z;
  written : list Z
}.

(** [*(uint8_t* )a = v]. *)
Definition store8 (m : memory) (a v : Z) : memory :=
  {| bytes := fun x => if x =? a then v else bytes m x;
     written := a :: written m |}.

(** ** loader.c: memory helpers

    Pointers are 32 bits wide on the target; [d++] is modelled with
    wrap-around. *)

Fixpoint mimi_memset (size : nat) (d val : Z) (m : memory) : memory :=
  match size with
  | O => m
  | S n => mimi_memset n (u32 (d + 1)) val (store8 m d val)
  end.

Fixpoint mimi_memcpy (size : nat) (d : Z) (s : list Z) (m : memory) : memory :=
  match size with
  | O => m
  | S n => mimi_memcpy n (u32 (d + 1)) (tl s) (store8 m d (u8 (hd 0 s)))
  end.

Fixpoint mimi_memcmp (size : nat) (a : Z) (b : list Z) (m : memory) : Z :=
  match size with
  | O => 0
  | S n =>
      if negb (u8 (bytes m a) =? u8 (hd 0 b))
      then (if u8 (bytes m a) <? u8 (hd 0 b) then -1 else 1)
      else mimi_memcmp n (u32 (a + 1)) (tl b) m
  end.

(** ** loader.c: address validation *)

Definition mimi_addr_in_region (addr size : Z) (region : mimi_mem_region_t) : bool :=
  if u32 (addr + size) <? addr then false
  else
    let region_end := u32 (r_base region + r_size region) in
    (addr >=? r_base region) && (u32 (addr + size) <=? region_end).

Fixpoint mimi_addr_valid_loop (addr size required_flags : Z)
    (rs : list mimi_mem_region_t) : bool :=
  match rs with
  | [] => false
  | region :: rest =>
      if negb (Z.land (r_flags region) required_flags =? required_flags)
      then mimi_addr_valid_loop addr size required_flags rest
      else if mimi_addr_in_region addr size region then true
      else mimi_addr_valid_loop addr size required_flags rest
  end.

Definition mimi_addr_valid {F} (addr size required_flags : Z)
    (config : mimi_loader_config_t F) : bool :=
  mimi_addr_valid_loop addr size required_flags (regions config).

Definition mimi_ranges_overlap (a_start a_size b_start b_size : Z) : bool :=
  let a_end := u32 (a_start + a_size) in
  let b_end := u32 (b_start + b_size) in
  (a_start <? b_end) && (b_start <? a_end).

(** The test the loader applies to every [read] result:
    [read_result < 0 || (uint32_t)read_result != size]. *)
Definition read_failed (read_result size : Z) : bool :=
  (read_result <? 0) || negb (u32 read_result =? size).

(** ** loader.c: segment loading *)

Definition chunk_of (remaining : Z) : Z :=
  if remaining >? LOAD_BUFFER_SIZE then LOAD_BUFFER_SIZE else remaining.

Section Loader.
Context {F : Type}.
Variable config : mimi_loader_config_t F.
Variable file : F.

(** The copy loop [while (remaining > 0)] of [mimi_load_segment].  Each
    iteration takes at least one byte off [remaining], so [remaining]
    iterations of fuel are enough; [None] is "out of fuel".  The result is
    the error, the final [dest_addr], [*bytes_copied] and memory. *)
Fixpoint copy_loop (fuel : nat) (file_offset dest_addr remaining copied : Z)
    (m : memory) : option (mimi_err_t * Z * Z * memory) :=
  if remaining >? 0 then
    match fuel with
    | O => None
    | S fuel' =>
        let chunk := chunk_of remaining in
        let '(read_result, buffer) := io_read (io config) file file_offset chunk in
        if read_failed read_result chunk
        then Some (MIMI_ERR_READ, dest_addr, copied, m)
        else
          copy_loop fuel' (u32 (file_offset + chunk)) (u32 (dest_addr + chunk))
            (remaining - chunk) (u32 (copied + chunk))
            (mimi_memcpy (Z.to_nat chunk) dest_addr buffer m)
    end
  else Some (MIMI_OK, dest_addr, copied, m).

(** The read-back loop of the optional verification. *)
Fixpoint verify_loop (fuel : nat) (file_offset dest_addr remaining : Z)
    (m : memory) : option mimi_err_t :=
  if remaining >? 0 then
    match fuel with
    | O => None
    | S fuel' =>
        let chunk := chunk_of remaining in
        let '(read_result, buffer) := io_read (io config) file file_offset chunk in
        if read_failed read_result chunk then Some MIMI_ERR_READ
        else if negb (mimi_memcmp (Z.to_nat chunk) dest_addr buffer m =? 0)
        then Some MIMI_ERR_LOAD_FAILED
        else
          verify_loop fuel' (u32 (file_offset + chunk)) (u32 (dest_addr + chunk))
            (remaining - chunk) m
    end
  else Some MIMI_OK.

Definition set_loaded (info : mimi_segment_info_t) (b : bool) : mimi_segment_info_t :=
  mkSegInfo (si_vaddr info) (si_size info) (si_flags info) b.

(** [mimi_load_segment config file phdr info bytes_copied bytes_zeroed]:
    the error, [*info], [*bytes_copied], [*bytes_zeroed] and memory on
    return. *)
Definition mimi_load_segment (phdr : Elf32_Phdr) (copied zeroed : Z) (m : memory)
    : option (mimi_err_t * mimi_segment_info_t * Z * Z * memory) :=
  let info := mkSegInfo (p_vaddr phdr) (p_memsz phdr) (p_flags phdr) false in
  if p_memsz phdr =? 0 then Some (MIMI_OK, set_loaded info true, copied, zeroed, m)
  else if validate_addresses config
          && negb (mimi_addr_valid (p_vaddr phdr) (p_memsz phdr)
                     (Z.lor MIMI_MEM_WRITE MIMI_MEM_RAM) config)
  then Some (MIMI_ERR_ADDR_INVALID, info, copied, zeroed, m)
  else
    match copy_loop (Z.to_nat (p_filesz phdr)) (p_offset phdr) (p_vaddr phdr)
            (p_filesz phdr) copied m with
    | None => None
    | Some (err, dest_addr, copied1, m1) =>
        if negb (bool_decide (err = MIMI_OK)) then Some (err, info, copied1, zeroed, m1)
        else
          let '(zeroed1, m2) :=
            if zero_bss config && (p_memsz phdr >? p_filesz phdr)
            then
              let bss_size := u32 (p_memsz phdr - p_filesz phdr) in
              (u32 (zeroed + bss_size), mimi_memset (Z.to_nat bss_size) dest_addr 0 m1)
            else (zeroed, m1) in
          if verify_after_load config && (p_filesz phdr >? 0)
          then
            match verify_loop (Z.to_nat (p_filesz phdr)) (p_offset phdr) (p_vaddr phdr)
                    (p_filesz phdr) m2 with
            | None => None
            | Some verr =>
                if negb (bool_decide (verr = MIMI_OK))
                then Some (verr, info, copied1, zeroed1, m2)
                else Some (MIMI_OK, set_loaded info true, copied1, zeroed1, m2)
            end
          else Some (MIMI_OK, set_loaded info true, copied1, zeroed1, m2)
    end.

(** ** loader.c: the main load function *)

Definition set_status (r : mimi_load_result_t) (s : mimi_err_t) : mimi_load_result_t :=
  mkResult s (entry r) (load_base r) (load_end r) (total_size r) (segment_count r)
    (segments r) (bytes_copied r) (bytes_zeroed r).

Definition set_entry (r : mimi_load_result_t) (e : Z) : mimi_load_result_t :=
  mkResult (status r) e (load_base r) (load_end r) (total_size r) (segment_count r)
    (segments r) (bytes_copied r) (bytes_zeroed r).

Definition set_load_base (r : mimi_load_result_t) (b : Z) : mimi_load_result_t :=
  mkResult (status r) (entry r) b (load_end r) (total_size r) (segment_count r)
    (segments r) (bytes_copied r) (bytes_zeroed r).

Definition set_load_end (r : mimi_load_result_t) (e : Z) : mimi_load_result_t :=
  mkResult (status r) (entry r) (load_base r) e (total_size r) (segment_count r)
    (segments r) (bytes_copied r) (bytes_zeroed r).

(** The effect of one [mimi_load_segment] call on [*result]:
    [segments[seg_index]], [bytes_copied] and [bytes_zeroed]. *)
Definition set_segment (r : mimi_load_result_t) (seg_index : Z)
    (info : mimi_segment_info_t) (copied zeroed : Z) : mimi_load_result_t :=
  mkResult (status r) (entry r) (load_base r) (load_end r) (total_size r)
    (segment_count r) (<[Z.to_nat seg_index := info]> (segments r)) copied zeroed.

Definition set_final (r : mimi_load_result_t) (seg_index total_memsz : Z)
    : mimi_load_result_t :=
  mkResult MIMI_OK (entry r) (load_base r) (load_end r) total_memsz seg_index
    (segments r) (bytes_copied r) (bytes_zeroed r).

(** [*result] after [mimi_memset(result, 0, sizeof( *result))] and the two
    assignments that follow it. *)
Definition result_init : mimi_load_result_t :=
  mkResult MIMI_OK 0 0xFFFFFFFF 0 0 0
    (replicate (Z.to_nat MIMI_MAX_SEGMENTS) (mkSegInfo 0 0 0 false)) 0 0.

(** The locals of pass 1: [loadable_count], [total_memsz] and the
    [seg_info] table of (vaddr, memsz) pairs. *)
Record pass1_t : Set := mkPass1 {
  loadable_count : Z;
  total_memsz : Z;
  seg_info : list (Z * Z)
}.

Definition pass1_init : pass1_t :=
  mkPass1 0 0 (replicate (Z.to_nat MIMI_MAX_SEGMENTS) (0, 0)).

(** [for (j = 0; j < loadable_count; j++)]: does the header overlap a
    segment seen before? *)
Fixpoint overlap_loop (n : nat) (j : Z) (phdr : Elf32_Phdr) (tbl : list (Z * Z)) : bool :=
  match n with
  | O => false
  | S n' =>
      let s := nth (Z.to_nat j) tbl (0, 0) in
      if mimi_ranges_overlap (p_vaddr phdr) (p_memsz phdr) (fst s) (snd s)
      then true
      else overlap_loop n' (j + 1) phdr tbl
  end.

(** The program header read at index [i]: the [read] result and the
    decoded header. *)
Definition read_phdr (ehdr : Elf32_Ehdr) (i : Z) : Z * Elf32_Phdr :=
  let phdr_offset := u32 (e_phoff ehdr + i * sizeof_Elf32_Phdr) in
  let '(read_result, buf) := io_read (io config) file phdr_offset sizeof_Elf32_Phdr in
  (read_result, decode_phdr buf).

(** Pass 1, [for (i = 0; i < e_phnum && i < MIMI_MAX_SEGMENTS; i++)], with
    [n] iterations left.  An error other than [MIMI_OK] is an early
    return, with [result->status] set. *)
Fixpoint pass1_loop (n : nat) (i : Z) (ehdr : Elf32_Ehdr) (st : pass1_t)
    (result : mimi_load_result_t) : mimi_err_t * pass1_t * mimi_load_result_t :=
  match n with
  | O => (MIMI_OK, st, result)
  | S n' =>
      let '(read_result, phdr) := read_phdr ehdr i in
      if read_failed read_result sizeof_Elf32_Phdr
      then (MIMI_ERR_READ, st, set_status result MIMI_ERR_READ)
      else if negb (p_type phdr =? PT_LOAD) then pass1_loop n' (i + 1) ehdr st result
      else if p_memsz phdr =? 0 then pass1_loop n' (i + 1) ehdr st result
      else if validate_addresses config
              && negb (mimi_addr_valid (p_vaddr phdr) (p_memsz phdr)
                         (Z.lor MIMI_MEM_WRITE MIMI_MEM_RAM) config)
      then (MIMI_ERR_ADDR_INVALID, st, set_status result MIMI_ERR_ADDR_INVALID)
      else if overlap_loop (Z.to_nat (loadable_count st)) 0 phdr (seg_info st)
      then (MIMI_ERR_ADDR_OVERLAP, st, set_status result MIMI_ERR_ADDR_OVERLAP)
      else
        let tbl := <[Z.to_nat (loadable_count st) := (p_vaddr phdr, p_memsz phdr)]>
                     (seg_info st) in
        let result1 :=
          if p_vaddr phdr <? load_base result
          then set_load_base result (p_vaddr phdr) else result in
        let result2 :=
          if u32 (p_vaddr phdr + p_memsz phdr) >? load_end result1
          then set_load_end result1 (u32 (p_vaddr phdr + p_memsz phdr)) else result1 in
        pass1_loop n' (i + 1) ehdr
          (mkPass1 (u32 (loadable_count st + 1)) (u32 (total_memsz st + p_memsz phdr)) tbl)
          result2
  end.

(** Pass 2, [for (i = 0; i < e_phnum; i++)], with [n] iterations left.
    [MIMI_OK] is the end of the loop (also by [break]); any other error
    is an early return. *)
Fixpoint pass2_loop (n : nat) (i : Z) (ehdr : Elf32_Ehdr) (seg_index : Z)
    (result : mimi_load_result_t) (m : memory)
    : option (mimi_err_t * Z * mimi_load_result_t * memory) :=
  match n with
  | O => Some (MIMI_OK, seg_index, result, m)
  | S n' =>
      let '(read_result, phdr) := read_phdr ehdr i in
      if read_failed read_result sizeof_Elf32_Phdr
      then Some (MIMI_ERR_READ, seg_index, set_status result MIMI_ERR_READ, m)
      else if negb (p_type phdr =? PT_LOAD) then pass2_loop n' (i + 1) ehdr seg_index result m
      else if seg_index >=? MIMI_MAX_SEGMENTS then Some (MIMI_OK, seg_index, result, m)
      else
        match mimi_load_segment phdr (bytes_copied result) (bytes_zeroed result) m with
        | None => None
        | Some (err, info, copied, zeroed, m') =>
            let result' := set_segment result seg_index info copied zeroed in
            if negb (bool_decide (err = MIMI_OK))
            then Some (err, seg_index, set_status result' err, m')
            else pass2_loop n' (i + 1) ehdr (u32 (seg_index + 1)) result' m'
        end
  end.

(** [mimi_elf_load config file result]: [*result] and target memory on
    return.  The value returned by the C function is [result->status] on
    every path. *)
Definition mimi_elf_load (m : memory) : option (mimi_load_result_t * memory) :=
  let result := result_init in
  let '(read_result, buf) := io_read (io config) file 0 sizeof_Elf32_Ehdr in
  if read_failed read_result sizeof_Elf32_Ehdr
  then Some (set_status result MIMI_ERR_READ, m)
  else
    let ehdr := decode_ehdr buf in
    let err := mimi_elf_validate_header ehdr in
    if negb (bool_decide (err = MIMI_OK)) then Some (set_status result err, m)
    else
      let result := set_entry result (e_entry ehdr) in
      let '(err, st, result) :=
        pass1_loop (Z.to_nat (Z.min (e_phnum ehdr) MIMI_MAX_SEGMENTS)) 0 ehdr
          pass1_init result in
      if negb (bool_decide (err = MIMI_OK)) then Some (result, m)
      else if loadable_count st =? 0
      then Some (set_status result MIMI_ERR_NO_LOADABLE, m)
      else
        match pass2_loop (Z.to_nat (e_phnum ehdr)) 0 ehdr 0 result m with
        | None => None
        | Some (err, seg_index, result, m') =>
            if negb (bool_decide (err = MIMI_OK)) then Some (result, m')
            else Some (set_final result seg_index (total_memsz st), m')
        end.

End Loader.

(** ** loader.c: post-load validation *)

(** The scan for an executable segment; its result is not used. *)
Fixpoint has_exec_loop (n : nat) (i : Z) (segs : list mimi_segment_info_t) : bool :=
  match n with
  | O => false
  | S n' =>
      if negb (Z.land (si_flags (nth (Z.to_nat i) segs (mkSegInfo 0 0 0 false))) PF_X =? 0)
      then true
      else has_exec_loop n' (i + 1) segs
  end.

Definition mimi_elf_validate_loaded (result : mimi_load_result_t) : mimi_err_t :=
  if negb (bool_decide (status result = MIMI_OK)) then status result
  else if (entry result <? load_base result) || (entry result >=? load_end result)
  then MIMI_ERR_NO_ENTRY
  else
    let has_exec := has_exec_loop (Z.to_nat (segment_count result)) 0 (segments result) in
    if negb has_exec then MIMI_OK else MIMI_OK.

(** ** fat32.h and main.c: the byte source handed to the loader *)

Inductive fat32_err_t : Set :=
  | FAT32_OK
  | FAT32_ERR_IO
  | FAT32_ERR_NOT_FAT32
  | FAT32_ERR_NOT_FOUND
  | FAT32_ERR_NOT_FILE
  | FAT32_ERR_NOT_DIR
  | FAT32_ERR_EOF
  | FAT32_ERR_INVALID.

#[global] Instance fat32_err_eq_dec : EqDecision fat32_err_t.
Proof. solve_decision. Defined.

(** An open file, reduced to what the loader can observe of it: the bytes
    of its cluster chain and the read position. *)
Record fat32_file_t : Set := mkFile {
  file_data : list Z;
  position : Z
}.

Definition fat32_size (f : fat32_file_t) : Z := Z.of_nat (length (file_data f)).

(** Modelled from the spec: [fat32_seek] is declared in fat32.h but its body
    is not among the sources.  "Seek. Absolute offset, clamped to file
    size."  The block source is taken to be free of faults. *)
Definition fat32_seek (f : fat32_file_t) (offset : Z) : fat32_err_t * fat32_file_t :=
  (FAT32_OK, mkFile (file_data f) (Z.min offset (fat32_size f))).

(** Modelled from the spec: [fat32_read] is declared in fat32.h but its body
    is not among the sources.  "Truncates the request to
    file_size - position.  Returns bytes actually delivered or negative on
    I/O fault."  The result is the count, the bytes delivered and the
    advanced handle. *)
Definition fat32_read (f : fat32_file_t) (size : Z) : Z * list Z * fat32_file_t :=
  let data := take (Z.to_nat size) (drop (Z.to_nat (position f)) (file_data f)) in
  let n := Z.of_nat (length data) in
  (n, data, mkFile (file_data f) (position f + n)).

(** main.c, [loader_io_read]: seek, then read.  Every call seeks to an
    absolute offset first, so the position left behind by the previous
    call is never observed and the handle is not threaded. *)
Definition loader_io_read (ctx : fat32_file_t) (offset size : Z) : Z * list Z :=
  let '(err, f) := fat32_seek ctx offset in
  if negb (bool_decide (err = FAT32_OK)) then (-1, [])
  else let '(n, data, _) := fat32_read f size in (n, data).

Definition loader_io_size (ctx : fat32_file_t) : Z := fat32_size ctx.

Definition s_loader_io : mimi_io_ops_t fat32_file_t :=
  mkIo fat32_file_t loader_io_read loader_io_size.

(** ** Building images: the inverse of the little-endian decoding *)

Definition enc16 (z : Z) : list Z := [u8 z; u8 (z / 2 ^ 8)].

Definition enc32 (z : Z) : list Z :=
  [u8 z; u8 (z / 2 ^ 8); u8 (z / 2 ^ 16); u8 (z / 2 ^ 24)].

Definition encode_ehdr (h : Elf32_Ehdr) : list Z :=
  take EI_NIDENT (e_ident h ++ replicate EI_NIDENT 0)
  ++ enc16 (e_type h) ++ enc16 (e_machine h) ++ enc32 (e_version h)
  ++ enc32 (e_entry h) ++ enc32 (e_phoff h) ++ enc32 (e_shoff h)
  ++ enc32 (e_flags h) ++ enc16 (e_ehsize h) ++ enc16 (e_phentsize h)
  ++ enc16 (e_phnum h) ++ enc16 (e_shentsize h) ++ enc16 (e_shnum h)
  ++ enc16 (e_shstrndx h).

Definition encode_phdr (p : Elf32_Phdr) : list Z :=
  enc32 (p_type p) ++ enc32 (p_offset p) ++ enc32 (p_vaddr p) ++ enc32 (p_paddr p)
  ++ enc32 (p_filesz p) ++ enc32 (p_memsz p) ++ enc32 (p_flags p) ++ enc32 (p_align p).

(** A well-formed ARM executable header announcing [phnum] program headers
    right after it. *)
Definition arm_ehdr (entry_point phnum : Z) : Elf32_Ehdr :=
  mkEhdr [ELFMAG0; ELFMAG1; ELFMAG2; ELFMAG3; ELFCLASS32; ELFDATA2LSB; EV_CURRENT]
    ET_EXEC EM_ARM EV_CURRENT entry_point sizeof_Elf32_Ehdr 0 0 sizeof_Elf32_Ehdr
    sizeof_Elf32_Phdr phnum 0 0 0.

Definition load_phdr (offset vaddr filesz memsz : Z) : Elf32_Phdr :=
  mkPhdr PT_LOAD offset vaddr vaddr filesz memsz (Z.lor PF_R (Z.lor PF_W PF_X)) 4.

(** An image file: header, program headers, then [payload] placed at the
    offset that follows the table. *)
Definition image (entry_point : Z) (phdrs : list Elf32_Phdr) (payload : list Z)
    : fat32_file_t :=
  mkFile (encode_ehdr (arm_ehdr entry_point (Z.of_nat (length phdrs)))
          ++ concat (map encode_phdr phdrs) ++ payload) 0.

(** The loader configuration main.c builds around one RAM region. *)
Definition ram_config (base size : Z) (verify : bool) : mimi_loader_config_t fat32_file_t :=
  mkConfig fat32_file_t
    [mkRegion base size
       (Z.lor MIMI_MEM_READ (Z.lor MIMI_MEM_WRITE (Z.lor MIMI_MEM_EXEC MIMI_MEM_RAM)))]
    s_loader_io true true verify.

(** Memory before the load: every byte holds [0xAA], nothing written. *)
Definition mem0 : memory := mkMem (fun _ => 0xAA) [].

(** ** handoff.c: CRC32 *)

(** One round of the inner loop:
    [crc = (crc >> 1) ^ (0xEDB88320 & -(crc & 1))]. *)
Definition crc_round (crc : Z) : Z :=
  Z.lxor (Z.shiftr crc 1) (Z.land 0xEDB88320 (u32 (- Z.land crc 1))).

Fixpoint crc_rounds (i : nat) (crc : Z) : Z :=
  match i with
  | O => crc
  | S i' => crc_rounds i' (crc_round crc)
  end.

(** One pass of the outer loop body on the byte [b]:
    [crc ^= b; for (i = 0; i < 8; i++) ...]. *)
Definition crc_update (crc b : Z) : Z := crc_rounds 8 (Z.lxor crc b).

(** [while (len--) { crc ^= *p++; ... }], from the state [crc], [len],
    [p]. *)
Fixpoint crc_loop (crc : Z) (len : nat) (p : list Z) {struct len} : Z :=
  match len with
  | O => crc
  | S len' => crc_loop (crc_update crc (u8 (hd 0 p))) len' (tl p)
  end.

Definition mimi_crc32 (data : list Z) (len : Z) : Z :=
  u32 (Z.lnot (crc_loop 0xFFFFFFFF (Z.to_nat len) data)).

(** The CRC32 the specification names, written from its words: reflected
    polynomial [0xEDB88320], processed bit by bit from the least
    significant end, register initialised to [0xFFFFFFFF] and the result
    XORed with [0xFFFFFFFF]. *)
Definition crc32_poly : Z := 0xEDB88320.

Definition crc32_bit (crc : Z) : Z :=
  if Z.odd crc then Z.lxor (Z.shiftr crc 1) crc32_poly else Z.shiftr crc 1.

Definition crc32_byte (crc b : Z) : Z :=
  Nat.iter 8 crc32_bit (Z.lxor crc b).

Definition crc32_ieee (data : list Z) : Z :=
  Z.lxor (fold_left crc32_byte data 0xFFFFFFFF) 0xFFFFFFFF.

(** ** handoff.h and handoff.c: the descriptor

    The descriptor is the array of its bytes; a field is a little-endian
    32-bit word at its offset. *)

Definition MIMI_HANDOFF_MAGIC : Z := 0x494D494D.
Definition MIMI_HANDOFF_VERSION : Z := 1.
Definition MIMI_MAX_REGIONS : Z := 8.
Definition MIMI_REGION_RAM : Z := 0x00000001.
Definition MIMI_REGION_FLASH : Z := 0x00000002.
Definition MIMI_REGION_LOADER : Z := 0x00000010.
Definition MIMI_REGION_PAYLOAD : Z := 0x00000020.

(** [_Static_assert(sizeof(mimi_handoff_t) == 256, ...)] in handoff.h. *)
Definition sizeof_mimi_handoff_t : Z := 256.

Definition off_magic : nat := 0x00.
Definition off_version : nat := 0x04.
Definition off_struct_size : nat := 0x08.
Definition off_header_crc : nat := 0x0C.
Definition off_boot_reason : nat := 0x10.
Definition off_boot_source : nat := 0x14.
Definition off_boot_count : nat := 0x18.
Definition off_boot_flags : nat := 0x1C.
Definition off_sys_clock_hz : nat := 0x20.
Definition off_boot_time_us : nat := 0x24.
Definition off_loader_time_us : nat := 0x28.
Definition off_ram_base : nat := 0x30.
Definition off_ram_size : nat := 0x34.
Definition off_loader_base : nat := 0x38.
Definition off_loader_size : nat := 0x3C.
Definition off_image_entry : nat := 0x40.
Definition off_image_load_base : nat := 0x44.
Definition off_image_load_size : nat := 0x48.
Definition off_image_crc32 : nat := 0x4C.
Definition off_image_name : nat := 0x50.
Definition sizeof_image_name : Z := 32.
Definition off_region_count : nat := 0x70.
Definition off_regions : nat := 0x78.
Definition sizeof_mimi_region_t : nat := 16.

Definition load32 (h : list Z) (off : nat) : Z := le32 h off.

Definition store32 (h : list Z) (off : nat) (v : Z) : list Z :=
  <[(off + 3)%nat := u8 (v / 2 ^ 24)]>
    (<[(off + 2)%nat := u8 (v / 2 ^ 16)]>
       (<[(off + 1)%nat := u8 (v / 2 ^ 8)]> (<[off := u8 v]> h))).

(** hal.h, [mimi_platform_info_t] (the fields the builder reads). *)
Record mimi_platform_info_t : Set := mkPlatform {
  reset_reason : Z;
  boot_source : Z;
  sys_clock_hz : Z;
  ram_base : Z;
  ram_size : Z;
  loader_base : Z;
  loader_size : Z
}.

(** [for (i = 0; i < sizeof(mimi_handoff_t); i++) p[i] = 0;] *)
Fixpoint clear_loop (n : nat) (i : nat) (h : list Z) : list Z :=
  match n with
  | O => h
  | S n' => clear_loop n' (S i) (<[i := 0]> h)
  end.

(** [mimi_strncpy dst src max] into the descriptor at offset [dst], with
    [n] iterations of [i < max - 1] left.  A C string is the list of its
    characters; reading at or past its end gives the terminating NUL. *)
Fixpoint strncpy_loop (n : nat) (i : nat) (dst : nat) (src : list Z) (h : list Z)
    : list Z :=
  match n with
  | O => <[(dst + i)%nat := 0]> h
  | S n' =>
      if negb (u8 (nth i src 0) =? 0)
      then strncpy_loop n' (S i) dst src (<[(dst + i)%nat := u8 (nth i src 0)]> h)
      else <[(dst + i)%nat := 0]> h
  end.

Definition mimi_strncpy (dst : nat) (src : list Z) (max : Z) (h : list Z) : list Z :=
  strncpy_loop (Z.to_nat (max - 1)) 0 dst src h.

(** [if (handoff->region_count < MIMI_MAX_REGIONS) { r = &regions[count++]; ... }] *)
Definition add_region (h : list Z) (base size flags : Z) : list Z :=
  if load32 h off_region_count <? MIMI_MAX_REGIONS then
    let k := Z.to_nat (load32 h off_region_count) in
    let h1 := store32 h off_region_count (u32 (load32 h off_region_count + 1)) in
    let r := (off_regions + sizeof_mimi_region_t * k)%nat in
    store32 (store32 (store32 (store32 h1 r base) (r + 4)%nat size) (r + 8)%nat flags)
      (r + 12)%nat 0
  else h.

(** [mimi_handoff_build handoff load_result platform image_name].
    [image_name] is [None] for a NULL pointer; [now] is the value
    [hal_get_time_us()] returns. *)
Definition mimi_handoff_build (handoff : list Z) (load_result : mimi_load_result_t)
    (platform : mimi_platform_info_t) (image_name : option (list Z)) (now : Z)
    : list Z :=
  let h := clear_loop (Z.to_nat sizeof_mimi_handoff_t) 0 handoff in
  let h := store32 h off_magic MIMI_HANDOFF_MAGIC in
  let h := store32 h off_version MIMI_HANDOFF_VERSION in
  let h := store32 h off_struct_size sizeof_mimi_handoff_t in
  let h := store32 h off_boot_reason (reset_reason platform) in
  let h := store32 h off_boot_source (boot_source platform) in
  let h := store32 h off_boot_count 0 in
  let h := store32 h off_boot_flags 0 in
  let h := store32 h off_sys_clock_hz (sys_clock_hz platform) in
  let h := store32 h off_boot_time_us now in
  let h := store32 h off_loader_time_us (load32 h off_boot_time_us) in
  let h := store32 h off_ram_base (ram_base platform) in
  let h := store32 h off_ram_size (ram_size platform) in
  let h := store32 h off_loader_base (loader_base platform) in
  let h := store32 h off_loader_size (loader_size platform) in
  let h := store32 h off_image_entry (entry load_result) in
  let h := store32 h off_image_load_base (load_base load_result) in
  let h := store32 h off_image_load_size (total_size load_result) in
  let h := store32 h off_image_crc32 0 in
  let h :=
    match image_name with
    | Some name => mimi_strncpy off_image_name name sizeof_image_name h
    | None => h
    end in
  let h := store32 h off_region_count 0 in
  let h := add_region h (ram_base platform) (ram_size platform)
             (Z.lor MIMI_REGION_RAM MIMI_REGION_PAYLOAD) in
  let h := add_region h (loader_base platform) (loader_size platform)
             (Z.lor MIMI_REGION_FLASH MIMI_REGION_LOADER) in
  let h := store32 h off_header_crc 0 in
  store32 h off_header_crc (mimi_crc32 h 16).

(** The header bytes the CRC covers, with the CRC field read as zero. *)
Definition crc_covered (h : list Z) : list Z :=
  take 16 (store32 h off_header_crc 0).

(** ** config.h, config.c and main.c: choosing and opening the image *)

Record mimi_config_t : Set := mkBootConfig {
  image_path : string;
  fallback_path : string;
  has_fallback : bool;
  verify : bool;
  max_retries : Z;
  boot_count : Z
}.

Definition MIMI_DEFAULT_IMAGE : string := "/boot/kernel.elf".
Definition MIMI_DEFAULT_FALLBACK : string := "/boot/recovery.elf".

(** [mimi_config_init], for the fields above. *)
Definition mimi_config_init : mimi_config_t :=
  mkBootConfig MIMI_DEFAULT_IMAGE MIMI_DEFAULT_FALLBACK true false 3 0.

(** [path[0] != '\0'] *)
Definition nonempty (path : string) : bool :=
  match path with EmptyString => false | String _ _ => true end.

(** [None] is the NULL pointer. *)
Definition mimi_config_get_image (config : mimi_config_t) : option string :=
  if (boot_count config >=? max_retries config)
     && (has_fallback config && nonempty (fallback_path config))
  then Some (fallback_path config)
  else if nonempty (image_path config) then Some (image_path config)
  else None.

Definition mimi_config_boot_attempt (config : mimi_config_t) : mimi_config_t :=
  mkBootConfig (image_path config) (fallback_path config) (has_fallback config)
    (verify config) (max_retries config) (u32 (boot_count config + 1)).

Definition BLINK_FILE_NOT_FOUND : Z := 5.

(** How phase 7 of [main] leaves the open step: halted in [boot_fail], or
    with [image_path] open in [s_loader_ctx.file]. *)
Inductive open_outcome : Set :=
  | BootFail (blink_code : Z) (message : string)
  | ImageOpen (path : string).

(** Phase 7 of [main] up to the open file.  [fat32_open] is the
    filesystem's answer for a path; the first component of the result is
    the list of paths handed to [fat32_open], in order. *)
Definition main_open_image (fat32_open : string -> fat32_err_t) (s_config : mimi_config_t)
    : list string * open_outcome :=
  let s_config := mimi_config_boot_attempt s_config in
  match mimi_config_get_image s_config with
  | None => ([], BootFail BLINK_FILE_NOT_FOUND "No boot image configured")
  | Some path =>
      let fs_err := fat32_open path in
      if negb (bool_decide (fs_err = FAT32_OK)) then
        if has_fallback s_config && nonempty (fallback_path s_config) then
          let fs_err := fat32_open (fallback_path s_config) in
          if negb (bool_decide (fs_err = FAT32_OK))
          then ([path; fallback_path s_config],
                BootFail BLINK_FILE_NOT_FOUND "Boot image not found")
          else ([path; fallback_path s_config], ImageOpen (fallback_path s_config))
        else ([path], BootFail BLINK_FILE_NOT_FOUND "Boot image not found")
      else ([path], ImageOpen path)
  end.

(** * Vocabulary of the properties *)

(** ** Header validation *)

(** Every check of [mimi_elf_validate_header] that does not look at
    [e_phnum]. *)
Definition header_fields_ok (h : Elf32_Ehdr) : Prop :=
  ident h EI_MAG0 = ELFMAG0 /\ ident h EI_MAG1 = ELFMAG1
  /\ ident h EI_MAG2 = ELFMAG2 /\ ident h EI_MAG3 = ELFMAG3
  /\ ident h EI_CLASS = ELFCLASS32 /\ ident h EI_DATA = ELFDATA2LSB
  /\ ident h EI_VERSION = EV_CURRENT /\ e_version h = EV_CURRENT
  /\ e_type h = ET_EXEC /\ e_machine h = EM_ARM
  /\ e_entry h <> 0 /\ e_phoff h <> 0
  /\ e_phentsize h = sizeof_Elf32_Phdr.

Definition set_phnum (h : Elf32_Ehdr) (n : Z) : Elf32_Ehdr :=
  mkEhdr (e_ident h) (e_type h) (e_machine h) (e_version h) (e_entry h) (e_phoff h)
    (e_shoff h) (e_flags h) (e_ehsize h) (e_phentsize h) n (e_shentsize h) (e_shnum h)
    (e_shstrndx h).

(** ** Orchestration: example configurations and filesystems *)

(** A filesystem on which the primary image cannot be read because of an
    I/O fault, while the recovery image opens. *)
Definition fs_primary_io_fault (path : string) : fat32_err_t :=
  if bool_decide (path = MIMI_DEFAULT_IMAGE) then FAT32_ERR_IO else FAT32_OK.

(** ** Example images *)

(** One segment: four bytes from the file, four bytes of BSS. *)
Definition img_minimal : fat32_file_t :=
  image 0x20000001 [load_phdr 84 0x20000000 4 8] [1; 2; 3; 4].

Definition ram_256k : mimi_loader_config_t fat32_file_t :=
  ram_config 0x20000000 0x40000 true.

(** The load result of [img_minimal]. *)
Definition result_minimal : mimi_load_result_t :=
  match mimi_elf_load ram_256k img_minimal mem0 with
  | Some (r, _) => r
  | None => result_init
  end.

(** ** Handoff: the platform of the specification's layout scenario *)

Definition platform_rp2040 : mimi_platform_info_t :=
  mkPlatform 1 1 125000000 0x20000000 0x40000 0x10000100 0x4000.

(** A descriptor buffer holding stale data. *)
Definition stale_handoff : list Z := replicate 256 0x5A.

(** "kernel.elf" *)
Definition name_kernel_elf : list Z := [107; 101; 114; 110; 101; 108; 46; 101; 108; 102].


(** ** Segment loading *)

(** The addresses a run of [n] bytes starting at [d] occupies, with the
    32-bit wrap-around of the pointer. *)
Definition in_run (d n a : Z) : Prop := exists o, 0 <= o < n /\ a = u32 (d + o).

Section LoaderVocabulary.
Context {F : Type}.
Variable config : mimi_loader_config_t F.
Variable file : F.

(** What the [k]-th read of a copy or verify loop over [rem] bytes from
    file offset [off] returns. *)
Definition chunk_read (off rem k : Z) : Z * list Z :=
  io_read (io config) file (u32 (off + LOAD_BUFFER_SIZE * k))
    (chunk_of (rem - LOAD_BUFFER_SIZE * k)).

(** Every read of such a loop delivers the whole chunk. *)
Definition chunks_readable (off rem : Z) : Prop :=
  forall k, 0 <= k -> LOAD_BUFFER_SIZE * k < rem ->
    read_failed (fst (chunk_read off rem k)) (chunk_of (rem - LOAD_BUFFER_SIZE * k)) = false.

(** The byte those reads deliver for position [o] of the run. *)
Definition stream_byte (off rem o : Z) : Z :=
  u8 (nth (Z.to_nat (o mod LOAD_BUFFER_SIZE))
        (snd (chunk_read off rem (o / LOAD_BUFFER_SIZE))) 0).

End LoaderVocabulary.

(** The fields of a program header are 32-bit values. *)
Definition phdr_u32 (p : Elf32_Phdr) : Prop :=
  0 <= p_offset p < 2 ^ 32 /\ 0 <= p_vaddr p < 2 ^ 32
  /\ 0 <= p_filesz p < 2 ^ 32 /\ 0 <= p_memsz p < 2 ^ 32.

(** The bytes a loaded segment occupies: [p_memsz] bytes as validated, or
    [p_filesz] bytes where the header declares more file bytes than
    memory. *)
Definition seg_extent (p : Elf32_Phdr) : Z := Z.max (p_filesz p) (p_memsz p).

(** ** The program-header table as the loader reads it *)

Definition is_pt_load (p : Elf32_Phdr) : bool := p_type p =? PT_LOAD.

(** A header pass 1 does not skip: [PT_LOAD] with [p_memsz > 0]. *)
Definition is_loadable (p : Elf32_Phdr) : bool :=
  (p_type p =? PT_LOAD) && negb (p_memsz p =? 0).

(** What pass 2 records for a [PT_LOAD] header it has processed. *)
Definition seg_info_of (p : Elf32_Phdr) : mimi_segment_info_t :=
  mkSegInfo (p_vaddr p) (p_memsz p) (p_flags p) true.

(** The overlap test of pass 1 on two headers. *)
Definition overlapping (p q : Elf32_Phdr) : bool :=
  mimi_ranges_overlap (p_vaddr p) (p_memsz p) (p_vaddr q) (p_memsz q).


Section TableVocabulary.
Context {F : Type}.
Variable config : mimi_loader_config_t F.
Variable file : F.

(** The ELF header the loader decodes. *)
Definition ehdr_of : Elf32_Ehdr :=
  decode_ehdr (snd (io_read (io config) file 0 sizeof_Elf32_Ehdr)).

Definition ehdr_readable : Prop :=
  read_failed (fst (io_read (io config) file 0 sizeof_Elf32_Ehdr)) sizeof_Elf32_Ehdr = false.

(** The program header at index [i], and whether reading it succeeds. *)
Definition phdr_at (ehdr : Elf32_Ehdr) (i : Z) : Elf32_Phdr :=
  snd (read_phdr config file ehdr i).

Definition phdr_readable (ehdr : Elf32_Ehdr) (i : Z) : Prop :=
  read_failed (fst (read_phdr config file ehdr i)) sizeof_Elf32_Phdr = false.

(** The [n] headers from index [i] on. *)
Fixpoint phdrs_from (ehdr : Elf32_Ehdr) (n : nat) (i : Z) : list Elf32_Phdr :=
  match n with
  | O => []
  | S n' => phdr_at ehdr i :: phdrs_from ehdr n' (i + 1)
  end.

(** The [PT_LOAD] headers of the whole table, in table order. *)
Definition pt_load_headers (ehdr : Elf32_Ehdr) : list Elf32_Phdr :=
  filter (fun p => is_pt_load p = true) (phdrs_from ehdr (Z.to_nat (e_phnum ehdr)) 0).

(** The headers pass 1 examines: those of the first [MIMI_MAX_SEGMENTS]
    table slots. *)
Definition pass1_bound (ehdr : Elf32_Ehdr) : Z := Z.min (e_phnum ehdr) MIMI_MAX_SEGMENTS.

(** The range of a header passes address validation, when that is on. *)
Definition addr_ok (p : Elf32_Phdr) : Prop :=
  validate_addresses config = true ->
  mimi_addr_valid (p_vaddr p) (p_memsz p) (Z.lor MIMI_MEM_WRITE MIMI_MEM_RAM) config = true.


(** Header read, header validation and pass 1 all succeed, with at least
    one loadable segment: the condition under which [mimi_elf_load]
    enters pass 2. *)
Definition elf_validated : bool :=
  let '(read_result, buf) := io_read (io config) file 0 sizeof_Elf32_Ehdr in
  negb (read_failed read_result sizeof_Elf32_Ehdr)
  && bool_decide (mimi_elf_validate_header (decode_ehdr buf) = MIMI_OK)
  && (let '(err, st, _) :=
        pass1_loop config file
          (Z.to_nat (Z.min (e_phnum (decode_ehdr buf)) MIMI_MAX_SEGMENTS)) 0
          (decode_ehdr buf) pass1_init (set_entry result_init (e_entry (decode_ehdr buf))) in
      bool_decide (err = MIMI_OK) && negb (loadable_count st =? 0)).


End TableVocabulary.


(** The invariant of pass 1 before it examines slot [i]: the first
    [loadable_count] entries of [seg_info] are the ranges of the loadable
    headers of slots [0 .. i-1]. *)
Definition pass1_inv {F} (config : mimi_loader_config_t F) (file : F)
    (ehdr : Elf32_Ehdr) (i : Z) (st : pass1_t) : Prop :=
  0 <= loadable_count st <= i
  /\ length (seg_info st) = Z.to_nat MIMI_MAX_SEGMENTS
  /\ (forall j, 0 <= j < i -> is_loadable (phdr_at config file ehdr j) = true ->
        exists k, 0 <= k < loadable_count st
                  /\ nth (Z.to_nat k) (seg_info st) (0, 0)
                     = (p_vaddr (phdr_at config file ehdr j),
                        p_memsz (phdr_at config file ehdr j)))
  /\ (forall k, 0 <= k < loadable_count st ->
        exists j, 0 <= j < i /\ is_loadable (phdr_at config file ehdr j) = true
                  /\ nth (Z.to_nat k) (seg_info st) (0, 0)
                     = (p_vaddr (phdr_at config file ehdr j),
                        p_memsz (phdr_at config file ehdr j))).

(** What pass 1 has established about slot [j] when it goes past it: the
    header could be read and, if loadable, its range is valid and
    overlaps no loadable header of an earlier slot. *)
Definition slot_checked {F} (config : mimi_loader_config_t F) (file : F)
    (ehdr : Elf32_Ehdr) (j : Z) : Prop :=
  phdr_readable config file ehdr j
  /\ (is_loadable (phdr_at config file ehdr j) = true ->
        addr_ok config (phdr_at config file ehdr j)
        /\ forall j', 0 <= j' < j -> is_loadable (phdr_at config file ehdr j') = true ->
             overlapping (phdr_at config file ehdr j) (phdr_at config file ehdr j') = false).

(** Why pass 1 stopped with error [e] somewhere in slots [i .. i+n-1]. *)
Definition pass1_failure {F} (config : mimi_loader_config_t F) (file : F)
    (ehdr : Elf32_Ehdr) (i n : Z) (e : mimi_err_t) : Prop :=
  (e = MIMI_ERR_READ
   /\ exists j, i <= j < i + n /\ ~ phdr_readable config file ehdr j)
  \/ (e = MIMI_ERR_ADDR_INVALID
      /\ exists j, i <= j < i + n /\ is_loadable (phdr_at config file ehdr j) = true
                   /\ ~ addr_ok config (phdr_at config file ehdr j))
  \/ (e = MIMI_ERR_ADDR_OVERLAP
      /\ exists j j', i <= j < i + n /\ 0 <= j' < j
           /\ is_loadable (phdr_at config file ehdr j) = true
           /\ is_loadable (phdr_at config file ehdr j') = true
           /\ overlapping (phdr_at config file ehdr j) (phdr_at config file ehdr j') = true).

(** The errors pass 2 can end with. *)
Definition load_phase_error (e : mimi_err_t) : Prop :=
  e = MIMI_ERR_READ \/ e = MIMI_ERR_ADDR_INVALID \/ e = MIMI_ERR_LOAD_FAILED.

(** ** More example images *)

(** The result and memory of a load, for the examples ([mem0] and
    [result_init] if the model ran out of fuel, which it never does). *)
Definition load_of {F} (config : mimi_loader_config_t F) (file : F)
    : mimi_load_result_t * memory :=
  match mimi_elf_load config file mem0 with
  | Some r => r
  | None => (result_init, mem0)
  end.

(** The specification's scenario 2: two overlapping segments. *)
Definition img_overlap : fat32_file_t :=
  image 0x20000001
    [load_phdr 116 0x20000000 4 0x200; load_phdr 120 0x200001FF 4 0x10]
    [1; 2; 3; 4; 5; 6; 7; 8].


(** One segment that declares eight file bytes but four bytes of memory,
    placed so that its memory range ends exactly where RAM ends. *)
Definition img_filesz_gt_memsz : fat32_file_t :=
  image 0x2000000D [load_phdr 84 0x2000000C 8 4] [1; 2; 3; 4; 5; 6; 7; 8].

Definition ram_16 : mimi_loader_config_t fat32_file_t :=
  ram_config 0x20000000 0x10 true.

(** The number of segments pass 1 has validated and checked for overlap
    when it ends. *)
Definition pass1_loadable_count {F} (config : mimi_loader_config_t F) (file : F) : Z :=
  let ehdr := ehdr_of config file in
  let '(_, st, _) :=
    pass1_loop config file (Z.to_nat (pass1_bound ehdr)) 0 ehdr pass1_init
      (set_entry result_init (e_entry ehdr)) in
  loadable_count st.

(** A loadable segment followed by a [PT_LOAD] header with [p_memsz = 0]
    that still declares four file bytes. *)
Definition img_empty_load : fat32_file_t :=
  image 0x20000001
    [load_phdr 116 0x20000000 4 8; load_phdr 120 0x20000100 4 0]
    [1; 2; 3; 4; 5; 6; 7; 8].



Definition ram_4k : mimi_loader_config_t fat32_file_t :=
  ram_config 0x20000000 0x1000 true.




(** ** Images with many segments *)

(** Segment [k] of an image whose payload starts at [payload]: four file
    bytes, eight bytes of memory, sixteen bytes apart. *)
Definition seg_k (payload : Z) (k : nat) : Elf32_Phdr :=
  load_phdr (payload + 4 * Z.of_nat k) (0x20000000 + 16 * Z.of_nat k) 4 8.

(** An image of [n] such segments; the file bytes of segment [k] are all
    [k + 1]. *)
Definition img_segments (n : nat) : fat32_file_t :=
  image 0x20000001
    (map (seg_k (sizeof_Elf32_Ehdr + sizeof_Elf32_Phdr * Z.of_nat n)) (seq 0 n))
    (flat_map (fun k => replicate 4 (Z.of_nat k + 1)) (seq 0 n)).



(** ** The end-to-end scenarios of the specification *)

(** Scenario 1: entry [0x20000101], one [LOAD] header with file offset
    [0x1000], 256 file bytes and 512 bytes of memory at [0x20000000]. *)
Definition img_scenario1 : fat32_file_t :=
  mkFile (encode_ehdr (arm_ehdr 0x20000101 1)
          ++ encode_phdr (load_phdr 0x1000 0x20000000 0x100 0x200)
          ++ replicate (Z.to_nat (0x1000 - 84)) 0
          ++ map Z.of_nat (seq 0 256)) 0.

(** Scenario 3: a segment that runs past the end of a 4 KiB RAM region. *)
Definition img_scenario3 : fat32_file_t :=
  image 0x20000F01 [load_phdr 84 0x20000F00 4 0x200] [1; 2; 3; 4].

(** Scenario 4: a header for x86-64, otherwise valid. *)
Definition img_scenario4 : fat32_file_t :=
  mkFile (encode_ehdr
            (mkEhdr (e_ident (arm_ehdr 0x20000101 1)) ET_EXEC 62 EV_CURRENT 0x20000101
               sizeof_Elf32_Ehdr 0 0 sizeof_Elf32_Ehdr sizeof_Elf32_Phdr 1 0 0 0)
          ++ encode_phdr (load_phdr 84 0x20000000 4 8) ++ [1; 2; 3; 4]) 0.

(** Scenario 6: a load result with entry [0x20000101]. *)
Definition result_scenario6 : mimi_load_result_t :=
  mkResult MIMI_OK 0x20000101 0x20000000 0x20000200 0x200 1
    (segments result_init) 0x100 0x100.

(** * Lemmas *)

(** The conditions of [mimi_elf_validate_header], taken one at a time. *)
Ltac validate_steps :=
  unfold mimi_elf_validate_header;
  repeat match goal with
         | |- (if ?c then _ else _) = _ -> _ =>
             let Hc := fresh "Hc" in destruct c eqn:Hc; [discriminate|]
         end.

Ltac bool_facts :=
  repeat match goal with
         | H : _ || _ = false |- _ => apply orb_false_elim in H; destruct H
         | H : negb _ = false |- _ => apply negb_false_iff in H
         | H : (_ =? _) = true |- _ => apply Z.eqb_eq in H
         | H : (_ =? _) = false |- _ => apply Z.eqb_neq in H
         | H : (_ >? _) = true |- _ => apply Z.gtb_lt in H
         end.


(** ** The handoff descriptor's header *)

Section HandoffHeader.








End HandoffHeader.


(** ** [mimi_crc32] is the CRC32 of the specification *)










(** ** Machine arithmetic *)

Lemma u32_range z : 0 <= u32 z < 2 ^ 32.
Proof. unfold u32. apply Z.mod_pos_bound. lia. Qed.

Lemma u32_small z : 0 <= z < 2 ^ 32 -> u32 z = z.
Proof. unfold u32. apply Z.mod_small. Qed.

Lemma u32_add_l a b : u32 (u32 a + b) = u32 (a + b).
Proof. unfold u32. apply Zplus_mod_idemp_l. Qed.

Lemma u32_add_inj d o1 o2 :
  0 <= o1 < 2 ^ 32 -> 0 <= o2 < 2 ^ 32 -> u32 (d + o1) = u32 (d + o2) -> o1 = o2.
Proof.
  unfold u32. intros H1 H2 Heq.
  assert (Hd : (d + o1 - (d + o2)) mod 2 ^ 32 = 0).
  { rewrite Zminus_mod, Heq, Z.sub_diag. reflexivity. }
  replace (d + o1 - (d + o2)) with (o1 - o2) in Hd by lia.
  apply Z.mod_divide in Hd; [|lia]. destruct Hd as [q Hq]. nia.
Qed.

Lemma u8_range z : 0 <= u8 z < 2 ^ 8.
Proof. unfold u8. apply Z.mod_pos_bound. lia. Qed.


Lemma le32_range buf off : 0 <= le32 buf off < 2 ^ 32.
Proof.
  unfold le32, byte_at.
  pose proof (u8_range (nth off buf 0)). pose proof (u8_range (nth (off + 1) buf 0)).
  pose proof (u8_range (nth (off + 2) buf 0)). pose proof (u8_range (nth (off + 3) buf 0)).
  lia.
Qed.

Lemma chunk_of_bounds rem :
  0 < rem -> 0 < chunk_of rem <= rem /\ chunk_of rem <= LOAD_BUFFER_SIZE.
Proof.
  unfold chunk_of, LOAD_BUFFER_SIZE. intros H. destruct (Z.gtb_spec rem 512); lia.
Qed.

(** ** Memory helpers *)

Lemma in_run_mono d n n' a : n <= n' -> in_run d n a -> in_run d n' a.
Proof. intros Hn (o & Ho & ->). exists o. split; [lia|reflexivity]. Qed.

Lemma in_run_shift d c n a :
  0 <= c -> in_run (u32 (d + c)) n a -> in_run d (c + n) a.
Proof.
  intros Hc (o & Ho & ->). exists (c + o). split; [lia|].
  rewrite u32_add_l. f_equal. lia.
Qed.

Lemma in_run_first d n : 0 <= d < 2 ^ 32 -> 0 < n -> in_run d n d.
Proof.
  intros Hd Hn. exists 0. split; [lia|]. rewrite Z.add_0_r, u32_small; auto.
Qed.

Lemma in_run_next d n a : in_run (u32 (d + 1)) (n - 1) a -> in_run d n a.
Proof.
  intros H. apply (in_run_shift d 1 (n - 1)) in H; [|lia].
  replace (1 + (n - 1)) with n in H by lia. exact H.
Qed.

Lemma mimi_memcpy_frame n d s m a :
  0 <= d < 2 ^ 32 ->
  ~ in_run d (Z.of_nat n) a -> bytes (mimi_memcpy n d s m) a = bytes m a.
Proof.
  revert d s m. induction n as [|n IH]; intros d s m Hd Hout; [reflexivity|].
  cbn [mimi_memcpy]. rewrite IH.
  - cbn [store8 bytes]. destruct (Z.eqb_spec a d) as [->|]; [|reflexivity].
    exfalso. apply Hout. apply in_run_first; [exact Hd|lia].
  - apply u32_range.
  - intros Hin. apply Hout. apply in_run_next.
    replace (Z.of_nat (S n) - 1) with (Z.of_nat n) by lia. exact Hin.
Qed.

Lemma mimi_memcpy_written n d s m a :
  0 <= d < 2 ^ 32 ->
  In a (written (mimi_memcpy n d s m)) -> In a (written m) \/ in_run d (Z.of_nat n) a.
Proof.
  revert d s m. induction n as [|n IH]; intros d s m Hd Hin; [left; exact Hin|].
  cbn [mimi_memcpy] in Hin. apply IH in Hin; [|apply u32_range].
  destruct Hin as [Hin|Hin].
  - cbn [store8 written] in Hin. destruct Hin as [<-|Hin]; [|left; exact Hin].
    right. apply in_run_first; [exact Hd|lia].
  - right. apply in_run_next.
    replace (Z.of_nat (S n) - 1) with (Z.of_nat n) by lia. exact Hin.
Qed.

Lemma mimi_memcpy_written_mono n d s m a :
  In a (written m) -> In a (written (mimi_memcpy n d s m)).
Proof.
  revert d s m. induction n as [|n IH]; intros d s m Hin; [exact Hin|].
  cbn [mimi_memcpy]. apply IH. cbn [store8 written]. right. exact Hin.
Qed.

Lemma mimi_memcpy_hit n d s m k :
  0 <= d < 2 ^ 32 -> Z.of_nat n <= 2 ^ 32 -> (k < n)%nat ->
  bytes (mimi_memcpy n d s m) (u32 (d + Z.of_nat k)) = u8 (nth k s 0).
Proof.
  revert d s m k. induction n as [|n IH]; intros d s m k Hd Hn Hk; [lia|].
  cbn [mimi_memcpy]. destruct k as [|k].
  - rewrite Z.add_0_r, (u32_small d) by exact Hd.
    rewrite mimi_memcpy_frame.
    + cbn [store8 bytes]. rewrite Z.eqb_refl. destruct s; reflexivity.
    + apply u32_range.
    + intros (o & Ho & Heq).
      rewrite u32_add_l in Heq. rewrite <- (u32_small d) in Heq at 1 by exact Hd.
      replace (u32 d) with (u32 (d + 0)) in Heq by (f_equal; lia).
      replace (d + 1 + o) with (d + (1 + o)) in Heq by lia.
      apply u32_add_inj in Heq; lia.
  - replace (u32 (d + Z.of_nat (S k))) with (u32 (u32 (d + 1) + Z.of_nat k))
      by (rewrite u32_add_l; f_equal; lia).
    rewrite IH by (try apply u32_range; lia).
    destruct s; [destruct k|]; reflexivity.
Qed.

Lemma mimi_memset_frame n d v m a :
  0 <= d < 2 ^ 32 ->
  ~ in_run d (Z.of_nat n) a -> bytes (mimi_memset n d v m) a = bytes m a.
Proof.
  revert d m. induction n as [|n IH]; intros d m Hd Hout; [reflexivity|].
  cbn [mimi_memset]. rewrite IH.
  - cbn [store8 bytes]. destruct (Z.eqb_spec a d) as [->|]; [|reflexivity].
    exfalso. apply Hout. apply in_run_first; [exact Hd|lia].
  - apply u32_range.
  - intros Hin. apply Hout. apply in_run_next.
    replace (Z.of_nat (S n) - 1) with (Z.of_nat n) by lia. exact Hin.
Qed.

Lemma mimi_memset_written n d v m a :
  0 <= d < 2 ^ 32 ->
  In a (written (mimi_memset n d v m)) -> In a (written m) \/ in_run d (Z.of_nat n) a.
Proof.
  revert d m. induction n as [|n IH]; intros d m Hd Hin; [left; exact Hin|].
  cbn [mimi_memset] in Hin. apply IH in Hin; [|apply u32_range].
  destruct Hin as [Hin|Hin].
  - cbn [store8 written] in Hin. destruct Hin as [<-|Hin]; [|left; exact Hin].
    right. apply in_run_first; [exact Hd|lia].
  - right. apply in_run_next.
    replace (Z.of_nat (S n) - 1) with (Z.of_nat n) by lia. exact Hin.
Qed.

Lemma mimi_memset_written_mono n d v m a :
  In a (written m) -> In a (written (mimi_memset n d v m)).
Proof.
  revert d m. induction n as [|n IH]; intros d m Hin; [exact Hin|].
  cbn [mimi_memset]. apply IH. cbn [store8 written]. right. exact Hin.
Qed.

Lemma mimi_memset_hit n d v m k :
  0 <= d < 2 ^ 32 -> Z.of_nat n <= 2 ^ 32 -> (k < n)%nat ->
  bytes (mimi_memset n d v m) (u32 (d + Z.of_nat k)) = v.
Proof.
  revert d m k. induction n as [|n IH]; intros d m k Hd Hn Hk; [lia|].
  cbn [mimi_memset]. destruct k as [|k].
  - rewrite Z.add_0_r, (u32_small d) by exact Hd.
    rewrite mimi_memset_frame.
    + cbn [store8 bytes]. rewrite Z.eqb_refl. reflexivity.
    + apply u32_range.
    + intros (o & Ho & Heq).
      rewrite u32_add_l in Heq. rewrite <- (u32_small d) in Heq at 1 by exact Hd.
      replace (u32 d) with (u32 (d + 0)) in Heq by (f_equal; lia).
      replace (d + 1 + o) with (d + (1 + o)) in Heq by lia.
      apply u32_add_inj in Heq; lia.
  - replace (u32 (d + Z.of_nat (S k))) with (u32 (u32 (d + 1) + Z.of_nat k))
      by (rewrite u32_add_l; f_equal; lia).
    apply IH; try apply u32_range; lia.
Qed.


(** ** The copy and verify loops *)

Section LoaderLemmas.
Context {F : Type}.
Variable config : mimi_loader_config_t F.
Variable file : F.



(** Whatever its outcome, the copy loop stores only inside the run of
    [rem] bytes at [dst]. *)
Lemma copy_loop_frame fuel off dst rem c m e dst' c' m' :
  0 <= dst < 2 ^ 32 ->
  copy_loop config file fuel off dst rem c m = Some (e, dst', c', m') ->
  (forall a, ~ in_run dst rem a -> bytes m' a = bytes m a)
  /\ (forall a, In a (written m') -> In a (written m) \/ in_run dst rem a)
  /\ (forall a, In a (written m) -> In a (written m')).
Proof.
  revert off dst rem c m. induction fuel as [|fuel IH]; intros off dst rem c m Hd Hrun.
  - cbn [copy_loop] in Hrun. destruct (Z.gtb_spec rem 0); [discriminate|].
    injection Hrun as <- <- <- <-. auto.
  - cbn [copy_loop] in Hrun. destruct (Z.gtb_spec rem 0) as [Hpos|].
    2:{ injection Hrun as <- <- <- <-. auto. }
    pose proof (chunk_of_bounds rem Hpos) as Hch.
    destruct (io_read (io config) file off (chunk_of rem)) as [rr buf].
    destruct (read_failed rr (chunk_of rem)).
    { injection Hrun as <- <- <- <-. auto. }
    apply IH in Hrun; [|apply u32_range]. destruct Hrun as (Hfr & Hw & Hmono).
    split; [|split].
    + intros a Hout. rewrite Hfr.
      * apply mimi_memcpy_frame; [exact Hd|]. rewrite Z2Nat.id by lia.
        intros Hin. apply Hout. apply (in_run_mono dst (chunk_of rem)); [lia|exact Hin].
      * intros Hin. apply Hout. apply in_run_shift in Hin; [|lia].
        replace (chunk_of rem + (rem - chunk_of rem)) with rem in Hin by lia. exact Hin.
    + intros a Hin. apply Hw in Hin. destruct Hin as [Hin|Hin].
      * apply mimi_memcpy_written in Hin; [|exact Hd]. rewrite Z2Nat.id in Hin by lia.
        destruct Hin as [Hin|Hin]; [left; exact Hin|].
        right. apply (in_run_mono dst (chunk_of rem)); [lia|exact Hin].
      * right. apply in_run_shift in Hin; [|lia].
        replace (chunk_of rem + (rem - chunk_of rem)) with rem in Hin by lia. exact Hin.
    + intros a Hin. apply Hmono. apply mimi_memcpy_written_mono. exact Hin.
Qed.

Lemma stream_byte_first off rem o :
  0 <= off < 2 ^ 32 -> 0 <= o < chunk_of rem -> 0 < rem ->
  stream_byte config file off rem o
  = u8 (nth (Z.to_nat o) (snd (io_read (io config) file off (chunk_of rem))) 0).
Proof.
  intros Hoff Ho Hrem. pose proof (chunk_of_bounds rem Hrem) as Hch.
  unfold stream_byte, chunk_read, LOAD_BUFFER_SIZE in *.
  rewrite (Z.div_small o 512), (Z.mod_small o 512) by lia.
  rewrite Z.mul_0_r, Z.add_0_r, Z.sub_0_r, u32_small by exact Hoff. reflexivity.
Qed.

Lemma chunk_read_next off rem k :
  512 < rem -> 1 <= k ->
  chunk_read config file (u32 (off + 512)) (rem - 512) (k - 1)
  = chunk_read config file off rem k.
Proof.
  intros Hrem Hk. unfold chunk_read, LOAD_BUFFER_SIZE.
  rewrite u32_add_l. f_equal; [f_equal; lia|f_equal; lia].
Qed.

Lemma stream_byte_next off rem o :
  512 < rem -> 512 <= o ->
  stream_byte config file (u32 (off + 512)) (rem - 512) (o - 512)
  = stream_byte config file off rem o.
Proof.
  intros Hrem Ho. unfold stream_byte, LOAD_BUFFER_SIZE.
  replace ((o - 512) / 512) with (o / 512 - 1)
    by (replace (o - 512) with (o + (-1) * 512) by lia; rewrite Z.div_add by lia; lia).
  replace ((o - 512) mod 512) with (o mod 512)
    by (replace (o - 512) with (o + (-1) * 512) by lia; rewrite Z.mod_add by lia; lia).
  rewrite chunk_read_next; [reflexivity|exact Hrem|].
  assert (1 * 512 <= o) by lia. pose proof (Z.div_le_lower_bound o 512 1). lia.
Qed.

(** A copy loop that ends with [MIMI_OK] has read every chunk in full and
    left in memory, at each position of the run, the byte read for it. *)
Lemma copy_loop_ok fuel off dst rem c m dst' c' m' :
  0 <= off < 2 ^ 32 -> 0 <= dst < 2 ^ 32 -> 0 <= rem <= 2 ^ 32 ->
  copy_loop config file fuel off dst rem c m = Some (MIMI_OK, dst', c', m') ->
  dst' = u32 (dst + rem) /\ u32 c' = u32 (c + rem)
  /\ chunks_readable config file off rem
  /\ (forall o, 0 <= o < rem ->
        bytes m' (u32 (dst + o)) = stream_byte config file off rem o).
Proof.
  revert off dst rem c m. induction fuel as [|fuel IH]; intros off dst rem c m Hoff Hd Hrem Hrun.
  - cbn [copy_loop] in Hrun. destruct (Z.gtb_spec rem 0); [discriminate|].
    injection Hrun as <- <- <-. assert (rem = 0) by lia. subst rem.
    rewrite !Z.add_0_r. split; [symmetry; apply u32_small; exact Hd|].
    split; [reflexivity|]. split; [|intros; lia].
    intros k Hk1 Hk2. unfold LOAD_BUFFER_SIZE in *. lia.
  - cbn [copy_loop] in Hrun. destruct (Z.gtb_spec rem 0) as [Hpos|].
    2:{ injection Hrun as <- <- <-. assert (rem = 0) by lia. subst rem.
        rewrite !Z.add_0_r. split; [symmetry; apply u32_small; exact Hd|].
        split; [reflexivity|]. split; [|intros; lia].
        intros k Hk1 Hk2. unfold LOAD_BUFFER_SIZE in *. lia. }
    pose proof (chunk_of_bounds rem Hpos) as Hch.
    destruct (io_read (io config) file off (chunk_of rem)) as [rr buf] eqn:Hrd.
    destruct (read_failed rr (chunk_of rem)) eqn:Hrf; [discriminate|].
    pose proof Hrun as Hfr.
    apply copy_loop_frame in Hfr; [|apply u32_range]. destruct Hfr as (Hfr & _ & _).
    apply IH in Hrun; try apply u32_range; [|lia].
    destruct Hrun as (Hdst & Hc & Hreads & Hbytes).
    assert (Hcase : chunk_of rem = rem /\ rem <= 512 \/ chunk_of rem = 512 /\ 512 < rem).
    { unfold chunk_of, LOAD_BUFFER_SIZE. destruct (Z.gtb_spec rem 512); lia. }
    split; [|split; [|split]].
    + rewrite Hdst, u32_add_l. f_equal. lia.
    + rewrite Hc, u32_add_l. f_equal. lia.
    + intros k Hk1 Hk2. destruct (Z.eq_dec k 0) as [->|Hk0].
      * unfold chunk_read, LOAD_BUFFER_SIZE.
        rewrite Z.mul_0_r, Z.add_0_r, Z.sub_0_r, u32_small, Hrd by exact Hoff. exact Hrf.
      * unfold LOAD_BUFFER_SIZE in *. destruct Hcase as [[Hc1 Hc2]|[Hc1 Hc2]]; [lia|].
        rewrite Hc1 in Hreads. specialize (Hreads (k - 1) ltac:(lia)).
        unfold LOAD_BUFFER_SIZE in Hreads.
        rewrite chunk_read_next in Hreads by lia.
        replace (rem - 512 - 512 * (k - 1)) with (rem - 512 * k) in Hreads by lia.
        apply Hreads. lia.
    + intros o Ho. destruct (Z.lt_ge_cases o (chunk_of rem)) as [Hlt|Hge].
      * rewrite Hfr.
        -- replace o with (Z.of_nat (Z.to_nat o)) at 1 by lia.
           rewrite mimi_memcpy_hit by lia.
           rewrite stream_byte_first, Hrd by lia. reflexivity.
        -- intros (o' & Ho' & Heq). rewrite u32_add_l in Heq.
           replace (dst + chunk_of rem + o') with (dst + (chunk_of rem + o')) in Heq by lia.
           apply u32_add_inj in Heq; lia.
      * destruct Hcase as [[Hc1 Hc2]|[Hc1 Hc2]]; [lia|]. rewrite Hc1 in *.
        specialize (Hbytes (o - 512) ltac:(lia)).
        rewrite u32_add_l in Hbytes. replace (dst + 512 + (o - 512)) with (dst + o) in Hbytes by lia.
        rewrite Hbytes. apply stream_byte_next; lia.
Qed.






Lemma decode_phdr_u32 buf : phdr_u32 (decode_phdr buf).
Proof. unfold phdr_u32, decode_phdr; cbn. repeat split; apply le32_range. Qed.

(** ** [mimi_load_segment] *)

(** The zeroing of the BSS part of a segment. *)
Lemma bss_zero_spec (p : Elf32_Phdr) (m1 : memory) :
  phdr_u32 p -> p_filesz p < p_memsz p ->
  let m2 := mimi_memset (Z.to_nat (u32 (p_memsz p - p_filesz p)))
              (u32 (p_vaddr p + p_filesz p)) 0 m1 in
  (forall a, ~ in_run (p_vaddr p) (p_memsz p) a -> bytes m2 a = bytes m1 a)
  /\ (forall o, 0 <= o < p_filesz p ->
        bytes m2 (u32 (p_vaddr p + o)) = bytes m1 (u32 (p_vaddr p + o)))
  /\ (forall o, p_filesz p <= o < p_memsz p -> bytes m2 (u32 (p_vaddr p + o)) = 0)
  /\ (forall a, In a (written m2) -> In a (written m1) \/ in_run (p_vaddr p) (p_memsz p) a)
  /\ (forall a, In a (written m1) -> In a (written m2)).
Proof.
  intros (Hoff & Hv & Hf & Hm) Hlt. cbv zeta.
  rewrite (u32_small (p_memsz p - p_filesz p)) by lia.
  assert (Hsub : forall a, in_run (u32 (p_vaddr p + p_filesz p))
                             (p_memsz p - p_filesz p) a ->
                           in_run (p_vaddr p) (p_memsz p) a).
  { intros a Hin. apply in_run_shift in Hin; [|lia].
    replace (p_filesz p + (p_memsz p - p_filesz p)) with (p_memsz p) in Hin by lia.
    exact Hin. }
  split; [|split; [|split; [|split]]].
  - intros a Hout. apply mimi_memset_frame; [apply u32_range|].
    rewrite Z2Nat.id by lia. intros Hin. apply Hout, Hsub, Hin.
  - intros o Ho. apply mimi_memset_frame; [apply u32_range|].
    rewrite Z2Nat.id by lia. intros (j & Hj & Heq). rewrite u32_add_l in Heq.
    replace (p_vaddr p + p_filesz p + j) with (p_vaddr p + (p_filesz p + j)) in Heq by lia.
    apply u32_add_inj in Heq; lia.
  - intros o Ho.
    replace (u32 (p_vaddr p + o))
      with (u32 (u32 (p_vaddr p + p_filesz p) + Z.of_nat (Z.to_nat (o - p_filesz p))))
      by (rewrite u32_add_l; f_equal; lia).
    apply mimi_memset_hit; [apply u32_range|lia|lia].
  - intros a Hin. apply mimi_memset_written in Hin; [|apply u32_range].
    rewrite Z2Nat.id in Hin by lia. destruct Hin as [Hin|Hin]; [left; exact Hin|].
    right. apply Hsub, Hin.
  - intros a Hin. apply mimi_memset_written_mono, Hin.
Qed.


(** Everything one call of [mimi_load_segment] does. *)
Lemma load_segment_inv (p : Elf32_Phdr) c z m e info c' z' m' :
  phdr_u32 p ->
  mimi_load_segment config file p c z m = Some (e, info, c', z', m') ->
  info = mkSegInfo (p_vaddr p) (p_memsz p) (p_flags p) (bool_decide (e = MIMI_OK))
  /\ (forall a, ~ in_run (p_vaddr p) (seg_extent p) a -> bytes m' a = bytes m a)
  /\ (forall a, In a (written m') -> In a (written m) \/ in_run (p_vaddr p) (seg_extent p) a)
  /\ (forall a, In a (written m) -> In a (written m'))
  /\ (p_memsz p = 0 -> e = MIMI_OK /\ m' = m /\ c' = c /\ z' = z)
  /\ (e = MIMI_OK -> p_memsz p <> 0 ->
        (validate_addresses config = true ->
           mimi_addr_valid (p_vaddr p) (p_memsz p) (Z.lor MIMI_MEM_WRITE MIMI_MEM_RAM)
             config = true)
        /\ chunks_readable config file (p_offset p) (p_filesz p)
        /\ (forall o, 0 <= o < p_filesz p ->
              bytes m' (u32 (p_vaddr p + o))
              = stream_byte config file (p_offset p) (p_filesz p) o)
        /\ (zero_bss config = true ->
              forall o, p_filesz p <= o < p_memsz p -> bytes m' (u32 (p_vaddr p + o)) = 0)).
Proof.
  intros Hu Hrun. pose proof Hu as (Hoff & Hv & Hf & Hm).
  unfold mimi_load_segment in Hrun.
  destruct (Z.eqb_spec (p_memsz p) 0) as [Hz|Hnz].
  { injection Hrun as <- <- <- <- <-. cbn. repeat split; auto; try contradiction. }
  destruct (validate_addresses config && negb _) eqn:Hval.
  { injection Hrun as <- <- <- <- <-. cbn.
    repeat split; auto; try contradiction; discriminate. }
  assert (Hvalid : validate_addresses config = true ->
            mimi_addr_valid (p_vaddr p) (p_memsz p) (Z.lor MIMI_MEM_WRITE MIMI_MEM_RAM)
              config = true).
  { intros Hva. rewrite Hva in Hval. cbn [andb] in Hval.
    destruct (mimi_addr_valid _ _ _ _); [reflexivity|discriminate]. }
  destruct (copy_loop _ _ _ _ _ _ _ _) as [[[[e1 d1] c1] m1]|] eqn:Hcopy; [|discriminate].
  pose proof (copy_loop_frame _ _ _ _ _ _ _ _ _ _ Hv Hcopy) as (Hfr1 & Hw1 & Hmono1).
  assert (Hext1 : forall a, in_run (p_vaddr p) (p_filesz p) a ->
                            in_run (p_vaddr p) (seg_extent p) a).
  { intros a. apply in_run_mono. unfold seg_extent. lia. }
  assert (Hext2 : forall a, in_run (p_vaddr p) (p_memsz p) a ->
                            in_run (p_vaddr p) (seg_extent p) a).
  { intros a. apply in_run_mono. unfold seg_extent. lia. }
  destruct (bool_decide_reflect (e1 = MIMI_OK)) as [He1|He1]; cbn [negb] in Hrun.
  2:{ injection Hrun as <- <- <- <- <-.
      rewrite bool_decide_eq_false_2 by exact He1.
      repeat split; auto; try contradiction.
      - intros a Hin. destruct (Hw1 a Hin); auto. }
  subst e1.
  assert (Hf32 : 0 <= p_filesz p <= 2 ^ 32) by lia.
  pose proof (copy_loop_ok _ _ _ _ _ _ _ _ _ Hoff Hv Hf32 Hcopy)
    as (Hd1 & _ & Hreads & Hbytes1).
  (* the zero phase *)
  assert (Hzero : exists z1 m2,
            (if zero_bss config && (p_memsz p >? p_filesz p)
             then (u32 (z + u32 (p_memsz p - p_filesz p)),
                   mimi_memset (Z.to_nat (u32 (p_memsz p - p_filesz p))) d1 0 m1)
             else (z, m1)) = (z1, m2)
            /\ (forall a, ~ in_run (p_vaddr p) (seg_extent p) a -> bytes m2 a = bytes m1 a)
            /\ (forall o, 0 <= o < p_filesz p ->
                  bytes m2 (u32 (p_vaddr p + o)) = bytes m1 (u32 (p_vaddr p + o)))
            /\ (zero_bss config = true ->
                  forall o, p_filesz p <= o < p_memsz p -> bytes m2 (u32 (p_vaddr p + o)) = 0)
            /\ (forall a, In a (written m2) ->
                  In a (written m1) \/ in_run (p_vaddr p) (seg_extent p) a)
            /\ (forall a, In a (written m1) -> In a (written m2))).
  { destruct (zero_bss config) eqn:Hzb; cbn [andb].
    - destruct (Z.gtb_spec (p_memsz p) (p_filesz p)) as [Hgt|Hle].
      + do 2 eexists. split; [reflexivity|]. subst d1.
        pose proof (bss_zero_spec p m1 Hu ltac:(lia)) as (B1 & B2 & B3 & B4 & B5).
        cbv zeta in *. repeat split; auto.
        intros a Hin. destruct (B4 a Hin); auto.
      + do 2 eexists. split; [reflexivity|]. repeat split; auto. intros _ o Ho. lia.
    - do 2 eexists. split; [reflexivity|]. repeat split; auto. discriminate. }
  destruct Hzero as (z1 & m2 & Hzeq & Hfr2 & Hkeep & Hbss & Hw2 & Hmono2).
  rewrite Hzeq in Hrun.
  assert (Hdone : e = MIMI_OK -> m' = m2 ->
            info = mkSegInfo (p_vaddr p) (p_memsz p) (p_flags p) true ->
            info = mkSegInfo (p_vaddr p) (p_memsz p) (p_flags p) (bool_decide (e = MIMI_OK))
            /\ (forall a, ~ in_run (p_vaddr p) (seg_extent p) a -> bytes m' a = bytes m a)
            /\ (forall a, In a (written m') ->
                  In a (written m) \/ in_run (p_vaddr p) (seg_extent p) a)
            /\ (forall a, In a (written m) -> In a (written m'))
            /\ (p_memsz p = 0 -> e = MIMI_OK /\ m' = m /\ c' = c /\ z' = z)
            /\ (e = MIMI_OK -> p_memsz p <> 0 ->
                  (validate_addresses config = true ->
                     mimi_addr_valid (p_vaddr p) (p_memsz p)
                       (Z.lor MIMI_MEM_WRITE MIMI_MEM_RAM) config = true)
                  /\ chunks_readable config file (p_offset p) (p_filesz p)
                  /\ (forall o, 0 <= o < p_filesz p ->
                        bytes m' (u32 (p_vaddr p + o))
                        = stream_byte config file (p_offset p) (p_filesz p) o)
                  /\ (zero_bss config = true ->
                        forall o, p_filesz p <= o < p_memsz p ->
                          bytes m' (u32 (p_vaddr p + o)) = 0))).
  { intros -> -> ->. rewrite bool_decide_eq_true_2 by reflexivity.
    split; [reflexivity|]. split; [|split; [|split; [|split]]].
    - intros a Hout. rewrite Hfr2 by exact Hout. apply Hfr1. intros Hin. apply Hout, Hext1, Hin.
    - intros a Hin. destruct (Hw2 a Hin) as [Hin1|]; [|auto].
      destruct (Hw1 a Hin1); auto.
    - auto.
    - intros; contradiction.
    - intros _ _. split; [exact Hvalid|]. split; [exact Hreads|]. split; [|exact Hbss].
      intros o Ho. rewrite Hkeep by exact Ho. apply Hbytes1, Ho. }
  destruct (verify_after_load config && (p_filesz p >? 0)).
  - destruct (verify_loop _ _ _ _ _ _ _) as [verr|]; [|discriminate].
    destruct (bool_decide_reflect (verr = MIMI_OK)) as [Hve|Hve]; cbn [negb] in Hrun.
    + injection Hrun as <- <- <- <- <-. apply Hdone; reflexivity.
    + injection Hrun as <- <- <- <- <-.
      rewrite bool_decide_eq_false_2 by exact Hve.
      split; [reflexivity|]. split; [|split; [|split; [|split]]].
      * intros a Hout. rewrite Hfr2 by exact Hout. apply Hfr1.
        intros Hin. apply Hout, Hext1, Hin.
      * intros a Hin. destruct (Hw2 a Hin) as [Hin1|]; [|auto].
        destruct (Hw1 a Hin1); auto.
      * auto.
      * intros; contradiction.
      * intros; contradiction.
  - injection Hrun as <- <- <- <- <-. apply Hdone; reflexivity.
Qed.



(** ** Pass 1 *)

Lemma phdr_at_u32 ehdr i : phdr_u32 (phdr_at config file ehdr i).
Proof.
  unfold phdr_at, read_phdr. destruct (io_read _ _ _ _). apply decode_phdr_u32.
Qed.

Lemma read_phdr_split ehdr i rr p :
  read_phdr config file ehdr i = (rr, p) ->
  p = phdr_at config file ehdr i
  /\ (read_failed rr sizeof_Elf32_Phdr = false <-> phdr_readable config file ehdr i).
Proof.
  intros H. unfold phdr_at, phdr_readable. rewrite H. cbn. split; [reflexivity|tauto].
Qed.

Lemma overlap_loop_false n j p tbl :
  0 <= j -> overlap_loop n j p tbl = false ->
  forall k, j <= k < j + Z.of_nat n ->
    mimi_ranges_overlap (p_vaddr p) (p_memsz p)
      (fst (nth (Z.to_nat k) tbl (0, 0))) (snd (nth (Z.to_nat k) tbl (0, 0))) = false.
Proof.
  revert j. induction n as [|n IH]; intros j Hj Hloop k Hk; [lia|].
  cbn [overlap_loop] in Hloop.
  destruct (mimi_ranges_overlap _ _ _ _) eqn:Ho; [discriminate|].
  destruct (Z.eq_dec k j) as [->|Hne]; [exact Ho|].
  apply (IH (j + 1)); [lia|exact Hloop|lia].
Qed.

Lemma overlap_loop_true n j p tbl :
  0 <= j -> overlap_loop n j p tbl = true ->
  exists k, j <= k < j + Z.of_nat n
    /\ mimi_ranges_overlap (p_vaddr p) (p_memsz p)
         (fst (nth (Z.to_nat k) tbl (0, 0))) (snd (nth (Z.to_nat k) tbl (0, 0))) = true.
Proof.
  revert j. induction n as [|n IH]; intros j Hj Hloop; [discriminate|].
  cbn [overlap_loop] in Hloop.
  destruct (mimi_ranges_overlap _ _ _ _) eqn:Ho.
  - exists j. split; [lia|exact Ho].
  - destruct (IH (j + 1) ltac:(lia) Hloop) as (k & Hk & Hov).
    exists k. split; [lia|exact Hov].
Qed.

Lemma pass1_inv_init ehdr : pass1_inv config file ehdr 0 pass1_init.
Proof.
  unfold pass1_inv, pass1_init; cbn [loadable_count seg_info].
  split; [lia|]. split; [apply length_replicate|]. split; intros; lia.
Qed.

Lemma pass1_inv_skip ehdr i st :
  0 <= i -> is_loadable (phdr_at config file ehdr i) = false ->
  pass1_inv config file ehdr i st -> pass1_inv config file ehdr (i + 1) st.
Proof.
  intros Hi Hskip (Hc & Hlen & Hfw & Hbw).
  split; [lia|]. split; [exact Hlen|]. split.
  - intros j Hj Hl. destruct (Z.eq_dec j i) as [->|Hne]; [congruence|].
    apply Hfw; [lia|exact Hl].
  - intros k Hk. destruct (Hbw k Hk) as (j & Hj & Hl & Hn).
    exists j. split; [lia|]. split; assumption.
Qed.

Lemma pass1_inv_accept ehdr i st p :
  0 <= i < MIMI_MAX_SEGMENTS -> p = phdr_at config file ehdr i -> is_loadable p = true ->
  pass1_inv config file ehdr i st ->
  pass1_inv config file ehdr (i + 1)
    (mkPass1 (u32 (loadable_count st + 1)) (u32 (total_memsz st + p_memsz p))
       (<[Z.to_nat (loadable_count st) := (p_vaddr p, p_memsz p)]> (seg_info st))).
Proof.
  unfold MIMI_MAX_SEGMENTS. intros Hi -> Hl (Hc & Hlen & Hfw & Hbw).
  unfold pass1_inv; cbn [loadable_count seg_info].
  change (Z.to_nat MIMI_MAX_SEGMENTS) with 16%nat in *.
  rewrite u32_small by lia.
  split; [lia|]. split; [rewrite length_insert; exact Hlen|]. split.
  - intros j Hj Hlj. destruct (Z.eq_dec j i) as [->|Hne].
    + exists (loadable_count st). split; [lia|].
      rewrite nth_lookup, list_lookup_insert_eq by lia. reflexivity.
    + destruct (Hfw j ltac:(lia) Hlj) as (k & Hk & Hn).
      exists k. split; [lia|].
      rewrite nth_lookup, list_lookup_insert_ne, <- nth_lookup by lia. exact Hn.
  - intros k Hk. destruct (Z.eq_dec k (loadable_count st)) as [->|Hne].
    + exists i. split; [lia|]. split; [exact Hl|].
      rewrite nth_lookup, list_lookup_insert_eq by lia. reflexivity.
    + destruct (Hbw k ltac:(lia)) as (j & Hj & Hlj & Hn).
      exists j. split; [lia|]. split; [exact Hlj|].
      rewrite nth_lookup, list_lookup_insert_ne, <- nth_lookup by lia. exact Hn.
Qed.

Lemma pass1_failure_shift ehdr i n e :
  0 <= n -> pass1_failure config file ehdr (i + 1) n e ->
  pass1_failure config file ehdr i (n + 1) e.
Proof.
  intros Hn [(He & j & Hj & H)|[(He & j & Hj & H)|(He & j & j' & Hj & H)]].
  - left. split; [exact He|]. exists j. split; [lia|exact H].
  - right; left. split; [exact He|]. exists j. split; [lia|exact H].
  - right; right. split; [exact He|]. exists j, j'. split; [lia|exact H].
Qed.

Lemma set_load_bounds_entry (r : mimi_load_result_t) (p : Elf32_Phdr) :
  let r1 := if p_vaddr p <? load_base r then set_load_base r (p_vaddr p) else r in
  let r2 := if u32 (p_vaddr p + p_memsz p) >? load_end r1
            then set_load_end r1 (u32 (p_vaddr p + p_memsz p)) else r1 in
  entry r2 = entry r /\ status r2 = status r /\ segments r2 = segments r
  /\ bytes_copied r2 = bytes_copied r /\ bytes_zeroed r2 = bytes_zeroed r.
Proof.
  cbv zeta. destruct (_ <? _); destruct (_ >? _); cbn; auto.
Qed.

(** The outcome of pass 1 from slot [i] on: either every slot was checked
    and the invariant holds at the end, or the error names a slot that
    fails the check reported. *)
Lemma pass1_loop_spec n i ehdr st res e st' res' :
  pass1_loop config file n i ehdr st res = (e, st', res') ->
  0 <= i -> i + Z.of_nat n <= MIMI_MAX_SEGMENTS ->
  pass1_inv config file ehdr i st ->
  (e = MIMI_OK /\ pass1_inv config file ehdr (i + Z.of_nat n) st'
   /\ entry res' = entry res /\ segments res' = segments res
   /\ bytes_copied res' = bytes_copied res /\ bytes_zeroed res' = bytes_zeroed res
   /\ forall j, i <= j < i + Z.of_nat n -> slot_checked config file ehdr j)
  \/ (status res' = e /\ pass1_failure config file ehdr i (Z.of_nat n) e).
Proof.
  revert i st res. induction n as [|n IH]; intros i st res Hrun Hi Hbound Hinv.
  { cbn [pass1_loop] in Hrun. injection Hrun as <- <- <-. left.
    change (Z.of_nat 0) with 0. rewrite Z.add_0_r.
    split; [reflexivity|]. split; [exact Hinv|]. repeat (split; [reflexivity|]).
    intros; lia. }
  cbn [pass1_loop] in Hrun.
  destruct (read_phdr config file ehdr i) as [rr p] eqn:Hrd.
  destruct (read_phdr_split _ _ _ _ Hrd) as [Hp Hreadable].
  destruct (read_failed rr sizeof_Elf32_Phdr) eqn:Hrf.
  { injection Hrun as <- <- <-. right. split; [reflexivity|]. left.
    split; [reflexivity|]. exists i. split; [lia|].
    intros Hr. apply Hreadable in Hr. discriminate. }
  assert (Hri : phdr_readable config file ehdr i) by (apply Hreadable; reflexivity).
  assert (Hskip : is_loadable p = false ->
            pass1_loop config file n (i + 1) ehdr st res = (e, st', res') ->
            (e = MIMI_OK /\ pass1_inv config file ehdr (i + Z.of_nat (S n)) st'
             /\ entry res' = entry res /\ segments res' = segments res
             /\ bytes_copied res' = bytes_copied res /\ bytes_zeroed res' = bytes_zeroed res
             /\ forall j, i <= j < i + Z.of_nat (S n) -> slot_checked config file ehdr j)
            \/ (status res' = e /\ pass1_failure config file ehdr i (Z.of_nat (S n)) e)).
  { intros Hnl Hrest.
    apply IH in Hrest; [|lia|lia|apply pass1_inv_skip; [lia|congruence|exact Hinv]].
    destruct Hrest as [(He & Hinv' & Hent & Hseg & Hbc & Hbz & Hall)|(Hst & Hfail)].
    - left. split; [exact He|].
      replace (i + Z.of_nat (S n)) with (i + 1 + Z.of_nat n) by lia.
      split; [exact Hinv'|]. repeat (split; [assumption|]).
      intros j Hj. destruct (Z.eq_dec j i) as [->|Hne]; [|apply Hall; lia].
      split; [exact Hri|]. rewrite <- Hp, Hnl. discriminate.
    - right. split; [exact Hst|].
      replace (Z.of_nat (S n)) with (Z.of_nat n + 1) by lia.
      apply pass1_failure_shift; [lia|exact Hfail]. }
  destruct (Z.eqb_spec (p_type p) PT_LOAD) as [Hty|Hty]; cbn [negb] in Hrun.
  2:{ apply Hskip; [|exact Hrun]. unfold is_loadable.
      destruct (Z.eqb_spec (p_type p) PT_LOAD); [contradiction|reflexivity]. }
  destruct (Z.eqb_spec (p_memsz p) 0) as [Hmz|Hmz].
  { apply Hskip; [|exact Hrun]. unfold is_loadable.
    rewrite Hmz, Z.eqb_refl, andb_false_r. reflexivity. }
  assert (Hl : is_loadable p = true).
  { unfold is_loadable. rewrite Hty, Z.eqb_refl.
    destruct (Z.eqb_spec (p_memsz p) 0); [contradiction|reflexivity]. }
  destruct (validate_addresses config && negb _) eqn:Hval.
  { injection Hrun as <- <- <-. right. split; [reflexivity|]. right; left.
    split; [reflexivity|]. exists i. split; [lia|]. rewrite <- Hp. split; [exact Hl|].
    intros Hok. unfold addr_ok in Hok.
    destruct (validate_addresses config); [|discriminate].
    rewrite Hok in Hval by reflexivity. discriminate. }
  assert (Haddr : addr_ok config p).
  { intros Hva. rewrite Hva in Hval. cbn [andb] in Hval.
    destruct (mimi_addr_valid _ _ _ _); [reflexivity|discriminate]. }
  pose proof Hinv as (Hc & Hlen & Hfw & Hbw).
  destruct (overlap_loop _ _ _ _) eqn:Hov.
  { injection Hrun as <- <- <-. right. split; [reflexivity|]. right; right.
    split; [reflexivity|].
    apply overlap_loop_true in Hov; [|lia]. destruct Hov as (k & Hk & Hovk).
    rewrite Z2Nat.id in Hk by lia.
    destruct (Hbw k ltac:(lia)) as (j' & Hj' & Hlj' & Hn).
    exists i, j'. split; [lia|]. split; [lia|]. rewrite <- Hp.
    split; [exact Hl|]. split; [exact Hlj'|].
    unfold overlapping. rewrite Hn in Hovk. exact Hovk. }
  pose proof (overlap_loop_false _ 0 _ _ (Z.le_refl 0) Hov) as Hno.
  rewrite Z2Nat.id in Hno by lia.
  apply IH in Hrun; [|lia|lia|apply pass1_inv_accept; auto; unfold MIMI_MAX_SEGMENTS in *; lia].
  destruct (set_load_bounds_entry res p) as (Hent0 & Hst0 & Hseg0 & Hbc0 & Hbz0).
  cbv zeta in Hent0, Hst0, Hseg0, Hbc0, Hbz0.
  destruct Hrun as [(He & Hinv' & Hent & Hseg & Hbc & Hbz & Hall)|(Hst & Hfail)].
  - left. split; [exact He|].
    replace (i + Z.of_nat (S n)) with (i + 1 + Z.of_nat n) by lia.
    split; [exact Hinv'|].
    split; [congruence|]. split; [congruence|]. split; [congruence|]. split; [congruence|].
    intros j Hj. destruct (Z.eq_dec j i) as [->|Hne]; [|apply Hall; lia].
    split; [exact Hri|]. rewrite <- Hp. intros _. split; [exact Haddr|].
    intros j' Hj' Hlj'. destruct (Hfw j' Hj' Hlj') as (k & Hk & Hn).
    specialize (Hno k ltac:(lia)). rewrite Hn in Hno. exact Hno.
  - right. split; [exact Hst|].
    replace (Z.of_nat (S n)) with (Z.of_nat n + 1) by lia.
    apply pass1_failure_shift; [lia|exact Hfail].
Qed.

(** ** The structure of a run of [mimi_elf_load] *)

Lemma ehdr_of_phnum : 0 <= e_phnum (ehdr_of config file) < 2 ^ 16.
Proof.
  unfold ehdr_of, decode_ehdr; cbn [e_phnum]. unfold le16, byte_at.
  pose proof (u8_range (nth 44 (snd (io_read (io config) file 0 sizeof_Elf32_Ehdr)) 0)).
  pose proof (u8_range (nth (44 + 1) (snd (io_read (io config) file 0 sizeof_Elf32_Ehdr)) 0)).
  lia.
Qed.

Lemma pass1_bound_range ehdr :
  0 + Z.of_nat (Z.to_nat (Z.min (e_phnum ehdr) MIMI_MAX_SEGMENTS)) <= MIMI_MAX_SEGMENTS.
Proof. unfold MIMI_MAX_SEGMENTS. lia. Qed.

(** A run either stops before pass 2, leaving memory as it was, or goes
    through pass 2 after a successful pass 1. *)
Lemma elf_load_cases m res m' :
  mimi_elf_load config file m = Some (res, m') ->
  (elf_validated config file = false /\ m' = m /\ status res <> MIMI_OK
   /\ status res <> MIMI_ERR_LOAD_FAILED)
  \/ (elf_validated config file = true
      /\ ehdr_readable config file
      /\ mimi_elf_validate_header (ehdr_of config file) = MIMI_OK
      /\ exists st res1 e s res2,
           pass1_loop config file
             (Z.to_nat (Z.min (e_phnum (ehdr_of config file)) MIMI_MAX_SEGMENTS)) 0
             (ehdr_of config file) pass1_init
             (set_entry result_init (e_entry (ehdr_of config file)))
           = (MIMI_OK, st, res1)
           /\ loadable_count st <> 0
           /\ pass2_loop config file (Z.to_nat (e_phnum (ehdr_of config file))) 0
                (ehdr_of config file) 0 res1 m = Some (e, s, res2, m')
           /\ (e <> MIMI_OK -> res = res2)
           /\ (e = MIMI_OK -> res = set_final res2 s (total_memsz st))).
Proof.
  unfold mimi_elf_load, elf_validated, ehdr_readable, ehdr_of.
  destruct (io_read (io config) file 0 sizeof_Elf32_Ehdr) as [rr buf]. cbn [fst snd].
  destruct (read_failed rr sizeof_Elf32_Ehdr).
  { intros [= <- <-]. left. cbn. repeat split; auto; discriminate. }
  cbn [negb andb].
  destruct (bool_decide_reflect (mimi_elf_validate_header (decode_ehdr buf) = MIMI_OK))
    as [Hv|Hv]; cbn [negb andb].
  2:{ intros [= <- <-]. left. cbn [status set_status]. repeat split; auto.
      unfold mimi_elf_validate_header.
      repeat match goal with |- context [if ?c then _ else _] => destruct c end;
        discriminate. }
  destruct (pass1_loop config file _ _ _ _ _) as [[e1 st] res1] eqn:Hp1.
  pose proof (pass1_loop_spec _ _ _ _ _ _ _ _ Hp1 (Z.le_refl 0)
                (pass1_bound_range (decode_ehdr buf)) (pass1_inv_init _)) as Hspec.
  destruct (bool_decide_reflect (e1 = MIMI_OK)) as [He1|He1]; cbn [negb andb].
  2:{ intros [= <- <-]. left.
      destruct Hspec as [(He & _)|(Hst & Hfail)]; [contradiction|].
      rewrite Hst. repeat split; auto.
      destruct Hfail as [(-> & _)|[(-> & _)|(-> & _)]]; discriminate. }
  subst e1.
  destruct (Z.eqb_spec (loadable_count st) 0) as [Hz|Hnz]; cbn [negb].
  { intros [= <- <-]. left. cbn. repeat split; auto; discriminate. }
  destruct (pass2_loop config file _ _ _ _ _ _) as [[[[e s] res2] m2]|] eqn:Hp2;
    [|discriminate].
  intros Hres. right. do 2 (split; [reflexivity|]). split; [exact Hv|].
  exists st, res1, e, s, res2.
  split; [first [reflexivity|exact Hp1]|]. split; [exact Hnz|].
  destruct (bool_decide_reflect (e = MIMI_OK)) as [He|He]; cbn [negb] in Hres;
    injection Hres as <- <-; (split; [first [reflexivity|exact Hp2]|]);
    split; intros; congruence.
Qed.

(** ** Pass 2 *)

Lemma copy_loop_err fuel off dst rem c m e d' c' m' :
  copy_loop config file fuel off dst rem c m = Some (e, d', c', m') ->
  e = MIMI_OK \/ e = MIMI_ERR_READ.
Proof.
  revert off dst rem c m. induction fuel as [|fuel IH]; intros off dst rem c m Hrun;
    cbn [copy_loop] in Hrun; destruct (rem >? 0); try discriminate;
    try (injection Hrun as <- <- <- <-; auto; fail).
  destruct (io_read _ _ _ _) as [rr buf]. destruct (read_failed _ _).
  - injection Hrun as <- <- <- <-. auto.
  - eapply IH, Hrun.
Qed.

Lemma verify_loop_err fuel off dst rem m e :
  verify_loop config file fuel off dst rem m = Some e ->
  e = MIMI_OK \/ e = MIMI_ERR_READ \/ e = MIMI_ERR_LOAD_FAILED.
Proof.
  revert off dst rem. induction fuel as [|fuel IH]; intros off dst rem Hrun;
    cbn [verify_loop] in Hrun; destruct (rem >? 0); try discriminate;
    try (injection Hrun as <-; auto; fail).
  destruct (io_read _ _ _ _) as [rr buf]. destruct (read_failed _ _).
  - injection Hrun as <-. auto.
  - destruct (negb _).
    + injection Hrun as <-. auto.
    + eapply IH, Hrun.
Qed.

Lemma load_segment_err p c z m e info c' z' m' :
  mimi_load_segment config file p c z m = Some (e, info, c', z', m') ->
  e = MIMI_OK \/ load_phase_error e.
Proof.
  unfold mimi_load_segment, load_phase_error. intros Hrun.
  destruct (p_memsz p =? 0); [injection Hrun as <- <- <- <- <-; auto|].
  destruct (validate_addresses config && negb _); [injection Hrun as <- <- <- <- <-; auto|].
  destruct (copy_loop _ _ _ _ _ _ _ _) as [[[[e1 d1] c1] m1]|] eqn:Hcopy; [|discriminate].
  apply copy_loop_err in Hcopy.
  destruct (negb (bool_decide (e1 = MIMI_OK))).
  { injection Hrun as <- <- <- <- <-. destruct Hcopy; auto. }
  destruct (if zero_bss config && _ then _ else _) as [z1 m2].
  destruct (verify_after_load config && _).
  - destruct (verify_loop _ _ _ _ _ _ _) as [verr|] eqn:Hver; [|discriminate].
    apply verify_loop_err in Hver.
    destruct (negb (bool_decide (verr = MIMI_OK))); injection Hrun as <- <- <- <- <-; auto.
    destruct Hver as [?|[?|?]]; auto.
  - injection Hrun as <- <- <- <- <-. auto.
Qed.

Lemma pass2_loop_err n i ehdr s res m e s' res' m' :
  pass2_loop config file n i ehdr s res m = Some (e, s', res', m') ->
  e = MIMI_OK \/ (status res' = e /\ load_phase_error e).
Proof.
  revert i s res m. induction n as [|n IH]; intros i s res m Hrun; cbn [pass2_loop] in Hrun.
  { injection Hrun as <- <- <- <-. auto. }
  destruct (read_phdr config file ehdr i) as [rr p].
  destruct (read_failed rr sizeof_Elf32_Phdr).
  { injection Hrun as <- <- <- <-. right. split; [reflexivity|]. left. reflexivity. }
  destruct (negb (p_type p =? PT_LOAD)); [eapply IH, Hrun|].
  destruct (s >=? MIMI_MAX_SEGMENTS); [injection Hrun as <- <- <- <-; auto|].
  destruct (mimi_load_segment _ _ _ _ _ _) as [[[[[e1 info] c1] z1] m1]|] eqn:Hseg;
    [|discriminate].
  apply load_segment_err in Hseg.
  destruct (bool_decide_reflect (e1 = MIMI_OK)) as [He|He]; cbn [negb] in Hrun.
  - eapply IH, Hrun.
  - injection Hrun as <- <- <- <-. right. split; [reflexivity|].
    destruct Hseg; [contradiction|assumption].
Qed.



(** What a pass 2 that runs to its end (or to the [break]) has recorded:
    one entry per [PT_LOAD] header met, in table order, up to the sixteen
    the array holds. *)
Lemma pass2_segments n i ehdr s res m s' res' m' :
  pass2_loop config file n i ehdr s res m = Some (MIMI_OK, s', res', m') ->
  0 <= s <= MIMI_MAX_SEGMENTS ->
  length (segments res) = Z.to_nat MIMI_MAX_SEGMENTS ->
  let L := filter (fun p => is_pt_load p = true) (phdrs_from config file ehdr n i) in
  s' = Z.min MIMI_MAX_SEGMENTS (s + Z.of_nat (length L))
  /\ length (segments res') = Z.to_nat MIMI_MAX_SEGMENTS
  /\ (forall k, (k < Z.to_nat s)%nat -> segments res' !! k = segments res !! k)
  /\ (forall k, (Z.to_nat s <= k < Z.to_nat s')%nat ->
        segments res' !! k = seg_info_of <$> (L !! (k - Z.to_nat s)%nat)).
Proof.
  unfold MIMI_MAX_SEGMENTS. change (Z.to_nat 16) with 16%nat.
  revert i s res m. induction n as [|n IH]; intros i s res m Hrun Hs Hlen; cbv zeta;
    cbn [pass2_loop phdrs_from] in *.
  { injection Hrun as <- <- <-. rewrite filter_nil. cbn [length].
    split; [lia|]. split; [exact Hlen|]. split; [auto|]. intros k Hk. lia. }
  destruct (read_phdr config file ehdr i) as [rr p] eqn:Hrd.
  destruct (read_phdr_split _ _ _ _ Hrd) as [Hp _].
  destruct (read_failed rr sizeof_Elf32_Phdr); [discriminate|].
  rewrite <- Hp.
  destruct (Z.eqb_spec (p_type p) PT_LOAD) as [Hty|Hty]; cbn [negb] in Hrun.
  2:{ rewrite filter_cons_False
        by (unfold is_pt_load; destruct (Z.eqb_spec (p_type p) PT_LOAD); congruence).
      apply (IH _ _ _ _ Hrun Hs Hlen). }
  rewrite filter_cons_True by (unfold is_pt_load; rewrite Hty; reflexivity).
  cbn [length].
  destruct (Z.geb_spec s MIMI_MAX_SEGMENTS) as [Hfull|Hroom]; unfold MIMI_MAX_SEGMENTS in *.
  { injection Hrun as <- <- <-. split; [lia|]. split; [exact Hlen|]. split; [auto|].
    intros k Hk. lia. }
  destruct (mimi_load_segment _ _ _ _ _ _) as [[[[[e1 info] c1] z1] m1]|] eqn:Hseg;
    [|discriminate].
  destruct (bool_decide_reflect (e1 = MIMI_OK)) as [He|He]; cbn [negb] in Hrun;
    [|injection Hrun as Hc; congruence].
  subst e1.
  assert (Hpu : phdr_u32 p) by (rewrite Hp; apply phdr_at_u32).
  apply (load_segment_inv _ _ _ _ _ _ _ _ _ Hpu) in Hseg. destruct Hseg as (Hinfo & _).
  rewrite bool_decide_eq_true_2 in Hinfo by reflexivity.
  rewrite u32_small in Hrun by lia.
  apply IH in Hrun; [|lia|cbn [set_segment segments]; rewrite length_insert; exact Hlen].
  cbv zeta in Hrun. destruct Hrun as (Hs' & Hlen' & Hlow & Hnew).
  cbn [set_segment segments] in Hlow.
  split; [lia|]. split; [exact Hlen'|]. split.
  - intros k Hk. rewrite Hlow by lia. apply list_lookup_insert_ne. lia.
  - intros k Hk. destruct (Nat.eq_dec k (Z.to_nat s)) as [->|Hne].
    + rewrite Hlow by lia. rewrite list_lookup_insert_eq by lia.
      rewrite Nat.sub_diag. cbn. rewrite Hinfo. reflexivity.
    + rewrite Hnew by lia.
      replace (k - Z.to_nat s)%nat with (S (k - Z.to_nat (s + 1)))%nat by lia.
      reflexivity.
Qed.

(** A successful run, taken apart. *)
Lemma elf_load_ok_inv m res m' :
  mimi_elf_load config file m = Some (res, m') -> status res = MIMI_OK ->
  ehdr_readable config file
  /\ mimi_elf_validate_header (ehdr_of config file) = MIMI_OK
  /\ exists st res1 s res2,
       pass1_loop config file (Z.to_nat (pass1_bound (ehdr_of config file))) 0
         (ehdr_of config file) pass1_init
         (set_entry result_init (e_entry (ehdr_of config file)))
       = (MIMI_OK, st, res1)
       /\ loadable_count st <> 0
       /\ pass1_inv config file (ehdr_of config file)
            (pass1_bound (ehdr_of config file)) st
       /\ (forall j, 0 <= j < pass1_bound (ehdr_of config file) ->
             slot_checked config file (ehdr_of config file) j)
       /\ segments res1 = segments result_init
       /\ entry res1 = e_entry (ehdr_of config file)
       /\ pass2_loop config file (Z.to_nat (e_phnum (ehdr_of config file))) 0
            (ehdr_of config file) 0 res1 m = Some (MIMI_OK, s, res2, m')
       /\ res = set_final res2 s (total_memsz st).
Proof.
  intros Hrun Hst.
  destruct (elf_load_cases m res m' Hrun)
    as [(_ & _ & Hne & _)|(_ & Hr & Hv & st & res1 & e & s & res2 & Hp1 & Hnz & Hp2 & Hne & Heq)];
    [contradiction|].
  split; [exact Hr|]. split; [exact Hv|].
  assert (He : e = MIMI_OK).
  { destruct (pass2_loop_err _ _ _ _ _ _ _ _ _ _ Hp2) as [He|(Hs & Hl)]; [exact He|].
    destruct (decide (e = MIMI_OK)) as [He|He]; [exact He|].
    rewrite (Hne He), Hs in Hst. contradiction. }
  subst e. exists st, res1, s, res2.
  pose proof (pass1_loop_spec _ _ _ _ _ _ _ _ Hp1 (Z.le_refl 0)
                (pass1_bound_range _) (pass1_inv_init _)) as Hspec.
  pose proof (ehdr_of_phnum) as Hph.
  assert (Hb : 0 + Z.of_nat (Z.to_nat (Z.min (e_phnum (ehdr_of config file))
                                         MIMI_MAX_SEGMENTS))
               = pass1_bound (ehdr_of config file)).
  { unfold pass1_bound, MIMI_MAX_SEGMENTS. lia. }
  rewrite Hb in Hspec.
  destruct Hspec as [(_ & Hinv & Hent & Hseg & _ & _ & Hall)|(_ & Hfail)].
  2:{ destruct Hfail as [(Hc & _)|[(Hc & _)|(Hc & _)]]; discriminate. }
  split; [exact Hp1|]. split; [exact Hnz|]. split; [exact Hinv|]. split; [exact Hall|].
  split; [exact Hseg|]. split; [exact Hent|]. split; [exact Hp2|]. apply Heq. reflexivity.
Qed.

(** ** Address validation and the overlap test *)









(** ** The contents of memory after pass 2 *)




(** ** Reading from a file *)



(** ** Loads that succeed *)





End LoaderLemmas.



(** * The scenarios of the specification, run on the model *)

Example scenario1_minimal_image :
  let r := fst (load_of ram_256k img_scenario1) in
  status r = MIMI_OK /\ load_base r = 0x20000000 /\ load_end r = 0x20000200
  /\ bytes_copied r = 0x100 /\ bytes_zeroed r = 0x100 /\ segment_count r = 1
  /\ mimi_elf_validate_loaded r = MIMI_OK.
Proof. vm_compute. repeat split. Qed.

Example scenario2_overlapping_segments :
  status (fst (load_of ram_256k img_overlap)) = MIMI_ERR_ADDR_OVERLAP
  /\ written (snd (load_of ram_256k img_overlap)) = [].
Proof. vm_compute. repeat split. Qed.

Example scenario3_out_of_range_segment :
  status (fst (load_of ram_4k img_scenario3)) = MIMI_ERR_ADDR_INVALID.
Proof. vm_compute. reflexivity. Qed.

Example scenario4_wrong_machine :
  status (fst (load_of ram_256k img_scenario4)) = MIMI_ERR_NOT_ARM.
Proof. vm_compute. reflexivity. Qed.

Example scenario6_handoff_layout :
  let h := mimi_handoff_build stale_handoff result_scenario6 platform_rp2040
             (Some name_kernel_elf) 0 in
  load32 h 0x00 = 0x494D494D /\ load32 h 0x08 = 256 /\ load32 h 0x30 = 0x20000000
  /\ load32 h 0x40 = 0x20000101 /\ load32 h 0x70 = 2
  /\ load32 h off_header_crc = crc32_ieee (crc_covered h).
Proof. vm_compute. repeat split. Qed.

Example sixteen_segments_loaded :
  status (fst (load_of ram_256k (img_segments 16))) = MIMI_OK
  /\ segment_count (fst (load_of ram_256k (img_segments 16))) = 16.
Proof. vm_compute. repeat split. Qed.

(** * The claims *)

(** ** C9: program-header count boundary *)

(** C9.  With every other header check passing, [mimi_elf_validate_header]
    accepts [e_phnum = 64] and rejects [e_phnum = 65], and any larger
    count, with [MIMI_ERR_TOO_MANY_PHDRS]; that code is returned only when
    all the other checks have passed and the count exceeds 64, and no
    other enumerator shares its numeric value. *)
Theorem C9_phnum_boundary (h : Elf32_Ehdr) (Hok : header_fields_ok h) :
  mimi_elf_validate_header (set_phnum h 64) = MIMI_OK
  /\ mimi_elf_validate_header (set_phnum h 65) = MIMI_ERR_TOO_MANY_PHDRS
  /\ (forall n, 64 < n ->
        mimi_elf_validate_header (set_phnum h n) = MIMI_ERR_TOO_MANY_PHDRS)
  /\ (forall h', mimi_elf_validate_header h' = MIMI_ERR_TOO_MANY_PHDRS ->
        header_fields_ok h' /\ 64 < e_phnum h')
  /\ (forall e, err_code e = err_code MIMI_ERR_TOO_MANY_PHDRS ->
        e = MIMI_ERR_TOO_MANY_PHDRS).
Proof.
  destruct Hok as (H0 & H1 & H2 & H3 & H4 & H5 & H6 & H7 & H8 & H9 & H10 & H11 & H12).
  assert (Hgen : forall n, n <> 0 ->
            mimi_elf_validate_header (set_phnum h n)
            = if n >? 64 then MIMI_ERR_TOO_MANY_PHDRS else MIMI_OK).
  { intros n Hn. unfold mimi_elf_validate_header, ident in *. cbn [e_ident e_version e_type
      e_machine e_entry e_phoff e_phnum e_phentsize set_phnum].
    rewrite H0, H1, H2, H3, H4, H5, H6, H7, H8, H9, H12, !Z.eqb_refl. cbn [negb orb].
    destruct (Z.eqb_spec (e_entry h) 0); [done|].
    destruct (Z.eqb_spec (e_phoff h) 0); [done|].
    destruct (Z.eqb_spec n 0); [done|]. reflexivity. }
  split; [apply (Hgen 64); lia|].
  split; [apply (Hgen 65); lia|].
  split.
  { intros n Hn. rewrite Hgen by lia. destruct (Z.gtb_spec n 64); [done|lia]. }
  split.
  { intros h'. unfold mimi_elf_validate_header.
    repeat match goal with
           | |- (if ?c then _ else _) = _ -> _ =>
               let Hc := fresh "Hc" in destruct c eqn:Hc; [discriminate|]
           end.
    destruct (e_phnum h' >? 64) eqn:Hgt; [|discriminate]. intros _.
    bool_facts. unfold header_fields_ok. repeat split; try assumption; lia. }
  intros e. destruct e; cbn; intros He; try discriminate He; reflexivity.
Qed.

Lemma C9_phnum_boundary_witness :
  header_fields_ok (arm_ehdr 0x20000101 1)
  /\ mimi_elf_validate_header (set_phnum (arm_ehdr 0x20000101 1) 64) = MIMI_OK
  /\ mimi_elf_validate_header (set_phnum (arm_ehdr 0x20000101 1) 65)
     = MIMI_ERR_TOO_MANY_PHDRS.
Proof.
  assert (Hok : header_fields_ok (arm_ehdr 0x20000101 1)).
  { unfold header_fields_ok; vm_compute; repeat split; discriminate. }
  split; [exact Hok|].
  pose proof (C9_phnum_boundary _ Hok) as (Ha & Hb & _).
  split; assumption.
Defined.

(** ** C7: post-load validation *)

(** C7.  On a load result whose status is [MIMI_OK],
    [mimi_elf_validate_loaded] returns [MIMI_OK] exactly when
    [load_base <= entry < load_end]; whether a segment carries the
    executable flag does not matter.  Hence whenever post-load validation
    of any load result returns [MIMI_OK], the entry point lies in
    [load_base, load_end). *)
Theorem C7_validate_loaded (r : mimi_load_result_t) :
  (status r = MIMI_OK ->
     (mimi_elf_validate_loaded r = MIMI_OK <-> load_base r <= entry r < load_end r))
  /\ (mimi_elf_validate_loaded r = MIMI_OK ->
        status r = MIMI_OK /\ load_base r <= entry r < load_end r).
Proof.
  assert (Hcore : status r = MIMI_OK ->
            (mimi_elf_validate_loaded r = MIMI_OK <-> load_base r <= entry r < load_end r)).
  { intros Hst. unfold mimi_elf_validate_loaded. rewrite Hst.
    rewrite bool_decide_eq_true_2 by reflexivity. cbn [negb].
    destruct (Z.ltb_spec (entry r) (load_base r)); cbn [orb].
    - split; [discriminate|lia].
    - destruct (Z.geb_spec (entry r) (load_end r)).
      + split; [discriminate|lia].
      + split; [intros _; lia|].
        intros _. destruct (negb _); reflexivity. }
  split; [exact Hcore|].
  intros Hv.
  assert (Hst : status r = MIMI_OK).
  { unfold mimi_elf_validate_loaded in Hv.
    destruct (bool_decide_reflect (status r = MIMI_OK)) as [Hs|Hs]; [exact Hs|].
    cbn [negb] in Hv. contradiction. }
  split; [exact Hst|]. apply Hcore; assumption.
Qed.

Lemma C7_validate_loaded_witness :
  status result_minimal = MIMI_OK
  /\ mimi_elf_validate_loaded result_minimal = MIMI_OK
  /\ load_base result_minimal <= entry result_minimal < load_end result_minimal.
Proof.
  assert (Hst : status result_minimal = MIMI_OK) by (vm_compute; reflexivity).
  assert (Hv : mimi_elf_validate_loaded result_minimal = MIMI_OK).
  { apply (proj1 (C7_validate_loaded result_minimal) Hst). vm_compute.
    split; [intros Hc; discriminate Hc|reflexivity]. }
  split; [exact Hst|]. split; [exact Hv|].
  apply (proj2 (C7_validate_loaded result_minimal) Hv).
Defined.

(** ** C6: fallback policy *)

(** C6, as stated, fails: with the default configuration and a filesystem
    on which the primary open ends in an I/O fault (not in "not found"),
    [main] goes on to open the fallback path. *)
Lemma C6_fallback_on_io_error :
  fs_primary_io_fault MIMI_DEFAULT_IMAGE = FAT32_ERR_IO
  /\ main_open_image fs_primary_io_fault mimi_config_init
     = ([MIMI_DEFAULT_IMAGE; MIMI_DEFAULT_FALLBACK], ImageOpen MIMI_DEFAULT_FALLBACK)
  /\ ~ (forall fat32_open s_config first second,
          fst (main_open_image fat32_open s_config) = [first; second] ->
          fat32_open first = FAT32_ERR_NOT_FOUND).
Proof.
  split; [vm_compute; reflexivity|].
  split; [vm_compute; reflexivity|].
  intros H.
  specialize (H fs_primary_io_fault mimi_config_init MIMI_DEFAULT_IMAGE
                MIMI_DEFAULT_FALLBACK eq_refl).
  vm_compute in H. discriminate H.
Qed.

(** C6, amended.  [main] hands at most two paths to [fat32_open].  A
    second open happens exactly when the first one fails, with whatever
    error, and a non-empty fallback path is configured; it is an open of
    the fallback path, it is the only retry, and its result decides the
    outcome. *)
Theorem C6_fallback_policy (fat32_open : string -> fat32_err_t) (s_config : mimi_config_t) :
  let cfg := mimi_config_boot_attempt s_config in
  let opened := fst (main_open_image fat32_open s_config) in
  let outcome := snd (main_open_image fat32_open s_config) in
  (length opened <= 2)%nat
  /\ (forall first,
        mimi_config_get_image cfg = Some first ->
        (fat32_open first <> FAT32_OK
         /\ has_fallback cfg = true /\ nonempty (fallback_path cfg) = true
         /\ opened = [first; fallback_path cfg]
         /\ outcome = (if bool_decide (fat32_open (fallback_path cfg) = FAT32_OK)
                       then ImageOpen (fallback_path cfg)
                       else BootFail BLINK_FILE_NOT_FOUND "Boot image not found"))
        \/ (opened = [first]
            /\ (fat32_open first = FAT32_OK /\ outcome = ImageOpen first
                \/ fat32_open first <> FAT32_OK
                   /\ (has_fallback cfg = false \/ nonempty (fallback_path cfg) = false)
                   /\ outcome = BootFail BLINK_FILE_NOT_FOUND "Boot image not found")))
  /\ (mimi_config_get_image cfg = None -> opened = []).
Proof.
  cbv zeta. unfold main_open_image.
  destruct (mimi_config_get_image (mimi_config_boot_attempt s_config)) as [p|] eqn:Hp.
  - destruct (bool_decide_reflect (fat32_open p = FAT32_OK)) as [Hok|Hne]; cbn [negb].
    + split; [cbn; lia|]. split; [|discriminate].
      intros first [= <-]. right. split; [reflexivity|]. left. split; [exact Hok|reflexivity].
    + destruct (has_fallback (mimi_config_boot_attempt s_config)) eqn:Hf; cbn [andb].
      * destruct (nonempty (fallback_path (mimi_config_boot_attempt s_config))) eqn:Hn.
        -- destruct (bool_decide_reflect
                       (fat32_open (fallback_path (mimi_config_boot_attempt s_config))
                        = FAT32_OK)); cbn [negb fst snd].
           ++ split; [cbn; lia|]. split; [|discriminate].
              intros first [= <-]. left. repeat split; auto.
           ++ split; [cbn; lia|]. split; [|discriminate].
              intros first [= <-]. left. repeat split; auto.
        -- split; [cbn; lia|]. split; [|discriminate].
           intros first [= <-]. right. split; [reflexivity|]. right. auto.
      * split; [cbn; lia|]. split; [|discriminate].
        intros first [= <-]. right. split; [reflexivity|]. right. auto.
  - cbn. split; [lia|]. split; [discriminate|reflexivity].
Qed.

Lemma C6_fallback_policy_witness :
  mimi_config_get_image (mimi_config_boot_attempt mimi_config_init)
  = Some MIMI_DEFAULT_IMAGE
  /\ fst (main_open_image fs_primary_io_fault mimi_config_init)
     = [MIMI_DEFAULT_IMAGE; MIMI_DEFAULT_FALLBACK].
Proof.
  assert (Hget : mimi_config_get_image (mimi_config_boot_attempt mimi_config_init)
                 = Some MIMI_DEFAULT_IMAGE) by (vm_compute; reflexivity).
  split; [exact Hget|].
  destruct (C6_fallback_policy fs_primary_io_fault mimi_config_init) as (_ & Hcases & _).
  destruct (Hcases MIMI_DEFAULT_IMAGE Hget)
    as [(_ & _ & _ & Hopened & _)|(_ & [(Hok & _)|(_ & [Hf|Hf] & _)])].
  - exact Hopened.
  - vm_compute in Hok. discriminate Hok.
  - vm_compute in Hf. discriminate Hf.
  - vm_compute in Hf. discriminate Hf.
Defined.

(** ** C8: header CRC of the handoff descriptor *)



(** ** C1: what a failed load leaves in memory *)




(** ** C2: file size against memory size *)

(** C2 fails on the code: nothing in the loader compares [p_filesz] with
    [p_memsz].  [img_filesz_gt_memsz] declares eight file bytes for four
    bytes of memory at the very end of RAM; the load is accepted, and the
    copy phase stores four bytes past the validated interval
    [[0x2000000C, 0x20000010)], outside the only RAM region. *)
Lemma C2_filesz_gt_memsz_accepted :
  p_filesz (phdr_at ram_16 img_filesz_gt_memsz (ehdr_of ram_16 img_filesz_gt_memsz) 0) = 8
  /\ p_memsz (phdr_at ram_16 img_filesz_gt_memsz (ehdr_of ram_16 img_filesz_gt_memsz) 0) = 4
  /\ status (fst (load_of ram_16 img_filesz_gt_memsz)) = MIMI_OK
  /\ written (snd (load_of ram_16 img_filesz_gt_memsz))
     = [0x20000013; 0x20000012; 0x20000011; 0x20000010;
        0x2000000F; 0x2000000E; 0x2000000D; 0x2000000C]
  /\ bytes (snd (load_of ram_16 img_filesz_gt_memsz)) 0x20000010 = 5
  /\ mimi_addr_valid 0x20000010 1 (Z.lor MIMI_MEM_WRITE MIMI_MEM_RAM) ram_16 = false.
Proof.
  repeat split; vm_compute; reflexivity.
Qed.

(** ** C10: what [segment_count] counts *)

(** C10.  In a successful load [segment_count] is the number of [PT_LOAD]
    program headers of the table, empty ones included, capped at the
    sixteen entries of [segments]; the [k]-th entry of [segments] records
    the [k]-th [PT_LOAD] header with [loaded = true], whatever its
    [p_memsz].  (Pass 1 counts only the headers with [p_memsz > 0]:
    [img_empty_load] is loaded with [segment_count = 2] after a pass 1
    that validated one segment.) *)
Theorem C10_segment_count {F : Type} (config : mimi_loader_config_t F) (file : F)
    (m m' : memory) (res : mimi_load_result_t)
    (Hrun : mimi_elf_load config file m = Some (res, m'))
    (Hok : status res = MIMI_OK) :
  let L := pt_load_headers config file (ehdr_of config file) in
  segment_count res = Z.min MIMI_MAX_SEGMENTS (Z.of_nat (length L))
  /\ (forall k p, Z.of_nat k < segment_count res -> L !! k = Some p ->
        segments res !! k
        = Some (mkSegInfo (p_vaddr p) (p_memsz p) (p_flags p) true)).
Proof.
  cbv zeta.
  destruct (elf_load_ok_inv config file m res m' Hrun Hok)
    as (_ & _ & st & res1 & s & res2 & _ & _ & _ & _ & Hseg1 & _ & Hp2 & ->).
  assert (Hlen : length (segments res1) = Z.to_nat MIMI_MAX_SEGMENTS).
  { rewrite Hseg1. cbn. apply length_replicate. }
  pose proof (pass2_segments config file _ _ _ _ _ _ _ _ _ Hp2
                ltac:(unfold MIMI_MAX_SEGMENTS; lia) Hlen) as Hsegs.
  cbv zeta in Hsegs. destruct Hsegs as (Hs & _ & _ & Hnew).
  cbn [segment_count segments set_final]. rewrite Z.add_0_l in Hs.
  split; [exact Hs|].
  intros k p Hk Hp. rewrite Hnew by lia. unfold pt_load_headers in Hp.
  rewrite Nat.sub_0_r, Hp. reflexivity.
Qed.

Lemma C10_segment_count_witness :
  mimi_elf_load ram_256k img_empty_load mem0 = Some (load_of ram_256k img_empty_load)
  /\ status (fst (load_of ram_256k img_empty_load)) = MIMI_OK
  /\ pass1_loadable_count ram_256k img_empty_load = 1
  /\ segment_count (fst (load_of ram_256k img_empty_load)) = 2
  /\ segments (fst (load_of ram_256k img_empty_load)) !! 1%nat
     = Some (mkSegInfo 0x20000100 0 7 true).
Proof.
  assert (Hrun : mimi_elf_load ram_256k img_empty_load mem0
                 = Some (fst (load_of ram_256k img_empty_load),
                         snd (load_of ram_256k img_empty_load))).
  { rewrite <- surjective_pairing. vm_compute. reflexivity. }
  assert (Hst : status (fst (load_of ram_256k img_empty_load)) = MIMI_OK)
    by (vm_compute; reflexivity).
  pose proof (C10_segment_count ram_256k img_empty_load mem0 _ _ Hrun Hst) as [Hcount Hrec].
  split; [rewrite (surjective_pairing (load_of ram_256k img_empty_load)); exact Hrun|].
  split; [exact Hst|]. split; [vm_compute; reflexivity|].
  split.
  - rewrite Hcount. vm_compute. reflexivity.
  - apply (Hrec 1%nat (load_phdr 120 0x20000100 4 0)).
    + rewrite Hcount. vm_compute. reflexivity.
    + vm_compute. reflexivity.
Defined.

(** ** C4: disjointness of the loaded segments *)




(** ** C3: what memory holds after a successful load *)




(** ** C5: the limit of sixteen segments *)



